(** * lds: list directory structure

    A shallow embedding of [lds.go] (package main) and the properties of
    its directory reader, its hand-written quicksort and its recursive
    tree printer.

    Conventions of the embedding.
    - Go strings are byte strings: [string].
    - Go [int] indices are [Z]; every index the sort computes is shown to
      stay within [-1, len], so 64-bit wrap-around never comes into play.
    - A slice is a [list]; an indexing expression out of range panics.
    - A Go [(value, error)] pair is [res]; a computation that may panic or
      be cut off by the recursion budget is [exec].
    - Standard output and the logger are one trace of [Event]s. *)

From Stdlib Require Import ZArith Lia Ascii String Sorting.Sorted Sorting.Permutation.
From Stdlib Require Import Structures.OrderedTypeEx.
From stdpp Require Import base tactics option list strings sorting.

Open Scope Z_scope.

(** ** Outcomes of a computation *)

Inductive exec (A : Type) : Type :=
| Done (a : A)
| Panic
| OutOfFuel.
Arguments Done {A} a.
Arguments Panic {A}.
Arguments OutOfFuel {A}.

#[global] Instance exec_ret : MRet exec := fun A a => Done a.
#[global] Instance exec_bind : MBind exec := fun A B f m =>
  match m with
  | Done a => f a
  | Panic => Panic
  | OutOfFuel => OutOfFuel
  end.

(** Go's [error] values; only their identity matters here. *)
Definition error := string.

Inductive res (A : Type) : Type :=
| Ok (a : A)
| Err (e : error).
Arguments Ok {A} a.
Arguments Err {A} e.

(** ** Slices *)

Module Slice.
Section Slice.
Context {A : Type}.

Definition len (s : list A) : Z := Z.of_nat (length s).

(** [s[i]] as an rvalue. *)
Definition get (s : list A) (i : Z) : exec A :=
  if i <? 0 then Panic
  else match s !! Z.to_nat i with
       | Some x => Done x
       | None => Panic
       end.

(** [s[i] = x]. *)
Definition set (s : list A) (i : Z) (x : A) : exec (list A) :=
  if i <? 0 then Panic
  else if i <? len s then Done (<[Z.to_nat i := x]> s)
  else Panic.

(** [s[i], s[j] = s[j], s[i]]: both operands are read first, then the two
    assignments are carried out from left to right. *)
Definition swap (s : list A) (i j : Z) : exec (list A) :=
  vj ← get s j;
  vi ← get s i;
  s1 ← set s i vj;
  set s1 j vi.
End Slice.
End Slice.

(** ** The sort routine *)

Section QuickSort.
Context {A : Type}.
(** The [less] closure of the caller.  It indexes the slice being sorted
    (the closure and [quickSort] share one backing array), so it takes the
    current contents. *)
Variable less : list A -> Z -> Z -> exec bool.

(** The loop [for j := low; j < high; j++] of [partition], entered with
    the current [i] and [j]. *)
Fixpoint partition_loop (fuel : nat) (entries : list A) (i j high : Z)
  : exec (list A * Z) :=
  if j <? high then
    match fuel with
    | O => OutOfFuel
    | S fuel' =>
        b ← less entries j high;
        if b : bool then
          entries' ← Slice.swap entries i j;
          partition_loop fuel' entries' (i + 1) (j + 1) high
        else
          partition_loop fuel' entries i (j + 1) high
    end
  else Done (entries, i).

Definition partition (entries : list A) (low high : Z) : exec (list A * Z) :=
  '(entries, i) ← partition_loop (Z.to_nat (high - low)) entries low low high;
  entries ← Slice.swap entries i high;
  Done (entries, i).

Fixpoint quickSort (fuel : nat) (entries : list A) (low high : Z)
  : exec (list A) :=
  if low <? high then
    match fuel with
    | O => OutOfFuel
    | S fuel' =>
        '(entries, p) ← partition entries low high;
        entries ← quickSort fuel' entries low (p - 1);
        quickSort fuel' entries (p + 1) high
    end
  else Done entries.
End QuickSort.

(** ** Data model *)

(** [fs.FileInfo] as the [os] package fills it in: name, size, mode bits and
    modification time (seconds). *)
Record FileInfo : Type := {
  Name : string;
  Size : Z;
  Mode : Z;
  ModTime : Z;
}.

(** [fs.ModeDir] and [fs.ModeSymlink]: bits 31 and 27 of a [FileMode]. *)
Definition ModeDir : Z := Z.shiftl 1 31.
Definition ModeSymlink : Z := Z.shiftl 1 27.

(** [info.IsDir()], that is [info.Mode()&ModeDir != 0]. *)
Definition IsDir (info : FileInfo) : bool :=
  negb (Z.land (Mode info) ModeDir =? 0).

Record Options : Type := {
  showHidden : bool;
  longFormat : bool;
  reverse : bool;
  derefLinks : bool;
  noSymlink : bool;
  maxDepth : Z;
}.

Inductive Style : Type :=
| dirStyle | fileStyle | hiddenStyle | linkStyle
| permStyle | sizeStyle | modTimeStyle | resetStyle.

Definition branch : string := "╰─ ".
Definition pipe : string := "│  ".
Definition tee : string := "├─ ".
Definition space : string := "   ".

(** What the program writes: a line on standard output (without its final
    newline) or a warning of the logger. *)
Inductive Warning : Type :=
| ErrorListing (root : string) (e : error)
| ErrorReadingDirectory (path : string) (e : error).

Inductive Event : Type :=
| Stdout (line : string)
| Warn (w : Warning).

(** The file system the run observes (taken as fixed during a run) and the
    library functions the program calls: [os], [path/filepath], [strings],
    [lipgloss], [fmt] and [time]. *)
Class World : Type := {
  File : Type;
  os_Lstat : string -> res FileInfo;
  os_Stat : string -> res FileInfo;
  os_Open : string -> res File;
  File_Readdir : File -> res (list FileInfo);
  os_Readlink : string -> res string;
  filepath_EvalSymlinks : string -> res string;
  filepath_Join : string -> string -> string;
  filepath_Base : string -> string;
  strings_ToLower : string -> string;
  Render : Style -> string -> string;
  FileMode_String : Z -> string;
  Sprintf_9d : Z -> string;
  ModTime_Format : Z -> string;
}.

(** [strings.HasPrefix(name, ".")]. *)
Definition hasDotPrefix (name : string) : bool := String.prefix "." name.

(** Go's [<] and [>] on strings: bytewise lexicographic. *)
Definition str_lt (a b : string) : bool :=
  match String.compare a b with Lt => true | _ => false end.
Definition str_gt (a b : string) : bool :=
  match String.compare a b with Gt => true | _ => false end.

(** ** The directory reader *)

Section ReadDir.
Context `{W : World}.

(** The filtering loop of [readDir]. *)
Fixpoint filterEntries (showHidden : bool) (entries : list FileInfo)
  : list FileInfo :=
  match entries with
  | [] => []
  | e :: rest =>
      if negb showHidden && hasDotPrefix (Name e)
      then filterEntries showHidden rest
      else e :: filterEntries showHidden rest
  end.

(** The closure [less] of [readDir] over the slice [filtered]. *)
Definition less (reverse : bool) (filtered : list FileInfo) (i j : Z)
  : exec bool :=
  if reverse then
    a ← Slice.get filtered i;
    b ← Slice.get filtered j;
    Done (str_gt (strings_ToLower (Name a)) (strings_ToLower (Name b)))
  else
    a ← Slice.get filtered i;
    b ← Slice.get filtered j;
    Done (str_lt (strings_ToLower (Name a)) (strings_ToLower (Name b))).

(** [quickSort(filtered, 0, len(filtered)-1, less)].  The recursion budget
    is the length of the slice, which [sortEntries_spec] shows is never
    used up. *)
Definition sortEntries (reverse : bool) (filtered : list FileInfo)
  : exec (list FileInfo) :=
  quickSort (less reverse) (length filtered) filtered 0
    (Slice.len filtered - 1).

Definition readDir (path : string) (showHidden reverse : bool)
  : exec (res (list FileInfo)) :=
  match os_Open path with
  | Err e => Done (Err e)
  | Ok f =>
      match File_Readdir f with
      | Err e => Done (Err e)
      | Ok entries =>
          let filtered := filterEntries showHidden entries in
          sorted ← sortEntries reverse filtered;
          Done (Ok sorted)
      end
  end.
End ReadDir.

(** ** The tree printer *)

Section PrintTree.
Context `{W : World}.

Definition printNode (name : string) (info : FileInfo) (opts : Options)
    (prefix : string) (isRoot printName : bool) (linkTarget : string)
    (isSymlink : bool) : list Event :=
  let isDir := IsDir info in
  let hidden := hasDotPrefix name in
  let displayName :=
    if isSymlink && negb (String.eqb linkTarget "")
       && negb (noSymlink opts) && negb (derefLinks opts)
    then name +:+ " -> " +:+ linkTarget
    else name in
  let styledName :=
    if isDir then Render dirStyle displayName
    else if hidden then Render hiddenStyle displayName
    else if isSymlink then Render linkStyle displayName
    else Render fileStyle displayName in
  if isRoot then [Stdout styledName]
  else if longFormat opts then
    let permCol := Render permStyle (FileMode_String (Mode info)) in
    let sizeCol := Render sizeStyle (Sprintf_9d (Size info)) in
    let modTimeCol := Render modTimeStyle (ModTime_Format (ModTime info)) in
    [Stdout (prefix +:+ styledName +:+ " " +:+ permCol +:+ " " +:+ sizeCol
             +:+ " " +:+ modTimeCol)]
  else [Stdout (prefix +:+ styledName)].

(** The symlink branch at the head of the loop body: the entry, its path,
    whether it still counts as a symlink, and the link target to show. *)
Definition resolveEntry (opts : Options) (entry : FileInfo) (entryPath : string)
  : FileInfo * string * bool * string :=
  let entryIsSymlink := negb (Z.land (Mode entry) ModeSymlink =? 0) in
  if entryIsSymlink && derefLinks opts then
    match filepath_EvalSymlinks entryPath with
    | Ok targetPath =>
        match os_Stat targetPath with
        | Ok targetInfo => (targetInfo, targetPath, false, "")
        | Err _ => (entry, entryPath, entryIsSymlink, "")
        end
    | Err _ => (entry, entryPath, entryIsSymlink, "")
    end
  else if entryIsSymlink && negb (noSymlink opts) then
    match os_Readlink entryPath with
    | Ok target => (entry, entryPath, entryIsSymlink, target)
    | Err _ => (entry, entryPath, entryIsSymlink, "")
    end
  else (entry, entryPath, entryIsSymlink, "").

Section Body.
(** The recursive call [printTree(entryPath, opts, newPrefix, false)]. *)
Variable rec : string -> string -> exec (list Event * option error).

(** One iteration of [for i, entry := range entries]. *)
Definition printEntry (path : string) (opts : Options) (prefix : string)
    (isLast : bool) (entry : FileInfo) : exec (list Event) :=
  let entryPath := filepath_Join path (Name entry) in
  let '(entry, entryPath, entryIsSymlink, linkTarget) :=
    resolveEntry opts entry entryPath in
  let linePrefix := if isLast then prefix +:+ branch else prefix +:+ tee in
  let line :=
    printNode (Name entry) entry opts linePrefix false true linkTarget
      entryIsSymlink in
  if IsDir entry then
    let newPrefix := if isLast then prefix +:+ space else prefix +:+ pipe in
    '(sub, err) ← rec entryPath newPrefix;
    match err with
    | Some e => Done (line ++ sub ++ [Warn (ErrorReadingDirectory entryPath e)])
    | None => Done (line ++ sub)
    end
  else Done line.

(** The loop over the listing, from index [i] on; [n] is [len(entries)]. *)
Fixpoint printEntries (path : string) (opts : Options) (prefix : string)
    (n i : Z) (entries : list FileInfo) : exec (list Event) :=
  match entries with
  | [] => Done []
  | entry :: rest =>
      out ← printEntry path opts prefix (i =? n - 1) entry;
      outs ← printEntries path opts prefix n (i + 1) rest;
      Done (out ++ outs)
  end.

Definition printTree_body (path : string) (opts : Options)
    (prefix : string) (isRoot : bool) : exec (list Event * option error) :=
  match os_Lstat path with
  | Err e => Done ([], Some e)
  | Ok info =>
      r ← readDir path (showHidden opts) (reverse opts);
      match r with
      | Err e => Done ([], Some e)
      | Ok entries =>
          let rootLine :=
            if isRoot then
              let name := filepath_Base path in
              let name := if String.eqb name "." then path else name in
              printNode name info opts "" true true "" false
            else [] in
          out ← printEntries path opts prefix (Slice.len entries) 0 entries;
          Done (rootLine ++ out, None)
      end
  end.
End Body.

(** [printTree]; [fuel] bounds the depth of the recursion, which a cycle of
    dereferenced links makes unbounded. *)
Fixpoint printTree (fuel : nat) (path : string) (opts : Options)
    (prefix : string) (isRoot : bool) : exec (list Event * option error) :=
  match fuel with
  | O => OutOfFuel
  | S fuel' =>
      printTree_body (fun p pre => printTree fuel' p opts pre false)
        path opts prefix isRoot
  end.

(** ** main *)

(** One iteration of [for i, root := range paths]; [n] is [len(paths)]. *)
Definition listRoot (fuel : nat) (opts : Options) (n i : Z) (root : string)
  : exec (list Event) :=
  let header :=
    if 1 <? n then
      (if 0 <? i then [Stdout ""] else []) ++ [Stdout (root +:+ ":")]
    else [] in
  '(out, err) ← printTree fuel root opts "" true;
  match err with
  | Some e => Done (header ++ out ++ [Warn (ErrorListing root e)])
  | None => Done (header ++ out)
  end.

Fixpoint listRoots (fuel : nat) (opts : Options) (n i : Z)
    (paths : list string) : exec (list Event) :=
  match paths with
  | [] => Done []
  | root :: rest =>
      out ← listRoot fuel opts n i root;
      outs ← listRoots fuel opts n (i + 1) rest;
      Done (out ++ outs)
  end.

(** Lines 94 to 110 of [main]: the default path and the loop over roots. *)
Definition listPaths (fuel : nat) (opts : Options) (paths : list string)
  : exec (list Event) :=
  let paths := if Slice.len paths =? 0 then paths ++ ["."%string] else paths in
  listRoots fuel opts (Slice.len paths) 0 paths.
End PrintTree.

(** ** Vocabulary of the properties *)

Section Order.
Context {A : Type}.
Variable lt : A -> A -> bool.

(** Elements on the two sides of a pivot. *)
Definition below (pv : A) (a : A) : Prop := lt a pv = true.
Definition not_below (pv : A) (a : A) : Prop := lt a pv = false.

(** No element is [lt] an earlier one. *)
Definition ascending : relation A := fun a b => lt b a = false.
End Order.

(** The order [less] decides on two entries. *)
Definition entry_lt `{W : World} (reverse : bool) (a b : FileInfo) : bool :=
  if reverse
  then str_gt (strings_ToLower (Name a)) (strings_ToLower (Name b))
  else str_lt (strings_ToLower (Name a)) (strings_ToLower (Name b)).

(** The name under which an entry is compared. *)
Definition foldedName `{W : World} (e : FileInfo) : string :=
  strings_ToLower (Name e).

(** [a] comes no later than [b] in case-insensitive name order. *)
Definition name_le `{W : World} (a b : FileInfo) : Prop :=
  String.leb (foldedName a) (foldedName b) = true.

(** The line of an entry below the root: prefix and styled name, followed
    in long format by mode, size and modification time. *)
Definition lineOf `{W : World} (opts : Options) (linePrefix styledName : string)
    (info : FileInfo) : Event :=
  Stdout
    (if longFormat opts then
       linePrefix +:+ styledName
       +:+ " " +:+ Render permStyle (FileMode_String (Mode info))
       +:+ " " +:+ Render sizeStyle (Sprintf_9d (Size info))
       +:+ " " +:+ Render modTimeStyle (ModTime_Format (ModTime info))
     else linePrefix +:+ styledName).

(** The warnings that follow an error of [printTree]. *)
Definition dirWarning (path : string) (err : option error) : list Event :=
  match err with
  | Some e => [Warn (ErrorReadingDirectory path e)]
  | None => []
  end.
Definition rootWarning (root : string) (err : option error) : list Event :=
  match err with
  | Some e => [Warn (ErrorListing root e)]
  | None => []
  end.


(** Two option records that differ at most in [maxDepth]. *)
Definition sameButMaxDepth (o1 o2 : Options) : Prop :=
  showHidden o1 = showHidden o2 /\ longFormat o1 = longFormat o2
  /\ reverse o1 = reverse o2 /\ derefLinks o1 = derefLinks o2
  /\ noSymlink o1 = noSymlink o2.

(** ** A small file system to run the program on

    [root] holds [sub/] (with [b.txt]), [.hidden], [a.txt], [B.txt], the
    links [link -> sub] and [dangling -> nowhere] and the unreadable
    directory [locked/]; [twins] holds
    [a] and [A]; the current directory [.] is empty; [missing] does not
    exist.  Output is not a terminal, so
    [Render] adds nothing. *)

Module Demo.

Definition lowerByte (c : ascii) : ascii :=
  let n := N_of_ascii c in
  if (65 <=? n)%N && (n <=? 90)%N then ascii_of_N (n + 32) else c.

(** [strings.ToLower] on ASCII names. *)
Fixpoint toLower (s : string) : string :=
  match s with
  | EmptyString => EmptyString
  | String c rest => String (lowerByte c) (toLower rest)
  end.

Definition file (name : string) : FileInfo :=
  {| Name := name; Size := 12; Mode := 420; ModTime := 0 |}.
Definition dir (name : string) : FileInfo :=
  {| Name := name; Size := 4096; Mode := Z.lor ModeDir 493; ModTime := 0 |}.
Definition symlink (name : string) : FileInfo :=
  {| Name := name; Size := 3; Mode := Z.lor ModeSymlink 511; ModTime := 0 |}.

Definition rootEntries : list FileInfo :=
  [dir "sub"; file ".hidden"; symlink "link"; file "a.txt"; file "B.txt";
   dir "locked"; symlink "dangling"].
Definition subEntries : list FileInfo := [file "b.txt"].
Definition twinEntries : list FileInfo := [file "a"; file "A"].

Definition enoent : error := "no such file or directory".
Definition eacces : error := "permission denied".
Definition einval : error := "invalid argument".

Definition lstat (path : string) : res FileInfo :=
  if String.eqb path "root" then Ok (dir "root")
  else if String.eqb path "root/sub" then Ok (dir "sub")
  else if String.eqb path "root/locked" then Ok (dir "locked")
  else if String.eqb path "root/link" then Ok (symlink "link")
  else if String.eqb path "root/dangling" then Ok (symlink "dangling")
  else if String.eqb path "twins" then Ok (dir "twins")
  else if String.eqb path "." then Ok (dir ".")
  else Err enoent.

Definition stat (path : string) : res FileInfo :=
  if String.eqb path "root/link" then Ok (dir "sub")
  else if String.eqb path "root/dangling" then Err enoent
  else lstat path.

Definition open (path : string) : res string :=
  if String.eqb path "root" then Ok path
  else if String.eqb path "root/sub" then Ok path
  else if String.eqb path "twins" then Ok path
  else if String.eqb path "." then Ok path
  else if String.eqb path "root/locked" then Err eacces
  else Err enoent.

Definition readdir (f : string) : res (list FileInfo) :=
  if String.eqb f "root" then Ok rootEntries
  else if String.eqb f "root/sub" then Ok subEntries
  else if String.eqb f "twins" then Ok twinEntries
  else if String.eqb f "." then Ok []
  else Err enoent.

Definition readlink (path : string) : res string :=
  if String.eqb path "root/link" then Ok "sub"%string
  else if String.eqb path "root/dangling" then Ok "nowhere"%string
  else Err einval.

Definition evalSymlinks (path : string) : res string :=
  if String.eqb path "root/link" then Ok "root/sub"%string
  else if String.eqb path "root/dangling" then Err enoent
  else match lstat path with Ok _ => Ok path | Err e => Err e end.

Definition join (dir name : string) : string := dir +:+ "/" +:+ name.

(** [filepath.Base] on the paths of this file system. *)
Definition base (path : string) : string :=
  if String.eqb path "root/sub" then "sub"
  else if String.eqb path "root/locked" then "locked"
  else if String.eqb path "root/link" then "link"
  else path.

#[global] Instance world : World := {|
  File := string;
  os_Lstat := lstat;
  os_Stat := stat;
  os_Open := open;
  File_Readdir := readdir;
  os_Readlink := readlink;
  filepath_EvalSymlinks := evalSymlinks;
  filepath_Join := join;
  filepath_Base := base;
  strings_ToLower := toLower;
  Render := fun _ s => s;
  FileMode_String := fun _ => "-rw-r--r--"%string;
  Sprintf_9d := fun _ => "       12"%string;
  ModTime_Format := fun _ => "2024-01-01 00:00"%string;
|}.

Definition defaults : Options :=
  {| showHidden := false; longFormat := false; reverse := false;
     derefLinks := false; noSymlink := false; maxDepth := 0 |}.
Definition withDeref : Options :=
  {| showHidden := false; longFormat := false; reverse := false;
     derefLinks := true; noSymlink := false; maxDepth := 0 |}.

End Demo.

(** ** Argument parsing and [main] *)

(** [&Options{}]. *)
Definition zeroOptions : Options :=
  {| showHidden := false; longFormat := false; reverse := false;
     derefLinks := false; noSymlink := false; maxDepth := 0 |}.

(** How the loop over the arguments ends: at [--help] or [-h], at
    [logger.Fatalf] (which exits), or normally.  [UnknownOption rest] holds
    the argument from the offending rune on. *)
Inductive Invocation : Type :=
| ShowHelp
| UnknownOption (rest : string)
| Run (opts : Options) (paths : list string).

(** [for _, ch := range arg[1:]] with its [switch].  The four flag letters
    are single bytes and no byte of a longer rune equals one of them, so
    going byte by byte reaches the first rune that is no flag letter exactly
    where the range loop does. *)
Fixpoint parseFlags (chars : string) (opts : Options) : Options + string :=
  match chars with
  | EmptyString => inl opts
  | String ch rest =>
      if Ascii.eqb ch "a" then
        parseFlags rest
          {| showHidden := true; longFormat := longFormat opts;
             reverse := reverse opts; derefLinks := derefLinks opts;
             noSymlink := noSymlink opts; maxDepth := maxDepth opts |}
      else if Ascii.eqb ch "l" then
        parseFlags rest
          {| showHidden := showHidden opts; longFormat := true;
             reverse := reverse opts; derefLinks := derefLinks opts;
             noSymlink := noSymlink opts; maxDepth := maxDepth opts |}
      else if Ascii.eqb ch "r" then
        parseFlags rest
          {| showHidden := showHidden opts; longFormat := longFormat opts;
             reverse := true; derefLinks := derefLinks opts;
             noSymlink := noSymlink opts; maxDepth := maxDepth opts |}
      else if Ascii.eqb ch "L" then
        parseFlags rest
          {| showHidden := showHidden opts; longFormat := longFormat opts;
             reverse := reverse opts; derefLinks := true;
             noSymlink := noSymlink opts; maxDepth := maxDepth opts |}
      else inr chars
  end.

(** [arg[1:]], used where [len(arg) > 1]. *)
Definition fromSecondByte (arg : string) : string :=
  match arg with
  | EmptyString => EmptyString
  | String _ rest => rest
  end.

(** [strings.HasPrefix(arg, "-") && len(arg) > 1]. *)
Definition isFlagArg (arg : string) : bool :=
  String.prefix "-" arg && (1 <? Z.of_nat (String.length arg)).

(** The loop [for i := 0; i < len(args); i++] of [main], from the current
    argument on. *)
Fixpoint parseArgs (args : list string) (opts : Options) (paths : list string)
  : Invocation :=
  match args with
  | [] => Run opts paths
  | arg :: rest =>
      if String.eqb arg "--help" || String.eqb arg "-h" then ShowHelp
      else if String.eqb arg "--no-symlink" then
        parseArgs rest
          {| showHidden := showHidden opts; longFormat := longFormat opts;
             reverse := reverse opts; derefLinks := derefLinks opts;
             noSymlink := true; maxDepth := maxDepth opts |}
          paths
      else if isFlagArg arg then
        match parseFlags (fromSecondByte arg) opts with
        | inl opts' => parseArgs rest opts' paths
        | inr unknown => UnknownOption unknown
        end
      else parseArgs rest opts (paths ++ [arg])
  end.

Definition tab : string := String "009" EmptyString.

(** The lines of [--help]. *)
Definition usage : list Event :=
  [Stdout "Usage: lds [options] [path ...]";
   Stdout "Options:";
   Stdout "  -a            Show hidden files.";
   Stdout ("  -l " +:+ tab +:+ tab +:+ tab +:+ " Show long listing.");
   Stdout "  -r            Reverse order.";
   Stdout "  -L            Follow symlinks.";
   Stdout "  --no-symlink  Do not follow symlinks."].

(** How the process ends: [main] returns after writing [out], or
    [logger.Fatalf] has reported the rune at the head of [rest] and exited
    with status 1. *)
Inductive Exit : Type :=
| Returned (out : list Event)
| Fatal (rest : string).

Definition main `{W : World} (fuel : nat) (args : list string) : exec Exit :=
  match parseArgs args zeroOptions [] with
  | ShowHelp => Done (Returned usage)
  | UnknownOption rest => Done (Fatal rest)
  | Run opts paths =>
      out ← listPaths fuel opts paths;
      Done (Returned out)
  end.

(** Vocabulary for the arguments: a flag letter, a string of flag letters,
    and whether a byte occurs in a string. *)
Definition isFlagLetter (ch : ascii) : bool :=
  Ascii.eqb ch "a" || Ascii.eqb ch "l" || Ascii.eqb ch "r" || Ascii.eqb ch "L".

Fixpoint allFlagLetters (chars : string) : bool :=
  match chars with
  | EmptyString => true
  | String ch rest => isFlagLetter ch && allFlagLetters rest
  end.

Fixpoint hasByte (c : ascii) (chars : string) : bool :=
  match chars with
  | EmptyString => false
  | String ch rest => Ascii.eqb ch c || hasByte c rest
  end.


(** * Properties *)

(** ** Slices *)

Section SliceFacts.
Context {A : Type}.
Implicit Types (s l : list A).

Lemma len_app l1 l2 : Slice.len (l1 ++ l2) = Slice.len l1 + Slice.len l2.
Proof. unfold Slice.len. rewrite length_app. lia. Qed.

Lemma len_cons (x : A) l : Slice.len (x :: l) = 1 + Slice.len l.
Proof. unfold Slice.len. simpl length. lia. Qed.

Lemma len_nonneg l : 0 <= Slice.len l.
Proof. unfold Slice.len. lia. Qed.

Lemma get_middle l1 (x : A) l2 i :
  i = Slice.len l1 -> Slice.get (l1 ++ x :: l2) i = Done x.
Proof.
  intros ->. unfold Slice.get, Slice.len.
  destruct (Z.ltb_spec (Z.of_nat (length l1)) 0) as [?|_]; [lia|].
  rewrite Nat2Z.id, list_lookup_middle; done.
Qed.

Lemma set_middle l1 (x y : A) l2 i :
  i = Slice.len l1 -> Slice.set (l1 ++ x :: l2) i y = Done (l1 ++ y :: l2).
Proof.
  intros ->. unfold Slice.set.
  pose proof (len_nonneg l1) as Hl. pose proof (len_nonneg l2) as Hl2.
  destruct (Z.ltb_spec (Slice.len l1) 0) as [?|_]; [lia|].
  rewrite len_app, len_cons.
  destruct (Z.ltb_spec (Slice.len l1) (Slice.len l1 + (1 + Slice.len l2)))
    as [_|?]; [|lia].
  unfold Slice.len. rewrite Nat2Z.id.
  f_equal. rewrite insert_app_r_alt by lia. rewrite Nat.sub_diag. done.
Qed.

Lemma swap_same l1 (x : A) l2 i :
  i = Slice.len l1 -> Slice.swap (l1 ++ x :: l2) i i = Done (l1 ++ x :: l2).
Proof.
  intros Hi. unfold Slice.swap.
  rewrite (get_middle l1 x l2 i Hi). cbn.
  rewrite (set_middle l1 x x l2 i Hi). cbn.
  apply set_middle, Hi.
Qed.

Lemma swap_apart l1 (x : A) l2 (y : A) l3 i j :
  i = Slice.len l1 -> j = Slice.len l1 + 1 + Slice.len l2 ->
  Slice.swap (l1 ++ x :: l2 ++ y :: l3) i j = Done (l1 ++ y :: l2 ++ x :: l3).
Proof.
  intros Hi Hj. unfold Slice.swap.
  assert (Hj' : j = Slice.len (l1 ++ x :: l2))
    by (rewrite len_app, len_cons; lia).
  assert (Hj'' : j = Slice.len (l1 ++ y :: l2))
    by (rewrite len_app, len_cons; lia).
  replace (l1 ++ x :: l2 ++ y :: l3) with ((l1 ++ x :: l2) ++ y :: l3)
    by (rewrite <- app_assoc; done).
  rewrite (get_middle _ y l3 j Hj'). cbn.
  rewrite <- app_assoc. cbn [app].
  rewrite (get_middle l1 x _ i Hi). cbn.
  rewrite (set_middle l1 x y _ i Hi). cbn.
  replace (l1 ++ y :: l2 ++ y :: l3) with ((l1 ++ y :: l2) ++ y :: l3)
    by (rewrite <- app_assoc; done).
  rewrite (set_middle _ y x l3 j Hj''). rewrite <- app_assoc. done.
Qed.
End SliceFacts.

(** ** The sort routine: partition and quickSort on a segment *)

Ltac list_norm := repeat (rewrite <- ?app_assoc; cbn [app]).
Ltac len_norm :=
  rewrite ?len_app, ?len_cons in *;
  change (Slice.len (@nil _)) with 0 in *.

Section QuickSortFacts.
Context {A : Type}.
Variable less : list A -> Z -> Z -> exec bool.
Variable lt : A -> A -> bool.
Hypothesis less_reads : forall s i j a b,
  Slice.get s i = Done a -> Slice.get s j = Done b ->
  less s i j = Done (lt a b).

(** Invariant of the loop of [partition]: the segment is [As ++ Bs ++ Cs]
    followed by the pivot, [As] below the pivot, [Bs] not below it, [Cs] not
    yet looked at; [i] and [j] point at the starts of [Bs] and [Cs]. *)
Lemma partition_loop_spec (Cs : list A) :
  forall (As Bs pre post : list A) (pv : A) (fuel : nat) (i j high : Z),
    i = Slice.len pre + Slice.len As ->
    j = i + Slice.len Bs ->
    high = j + Slice.len Cs ->
    (length Cs <= fuel)%nat ->
    Forall (below lt pv) As -> Forall (not_below lt pv) Bs ->
    exists As' Bs',
      partition_loop less fuel (pre ++ As ++ Bs ++ Cs ++ pv :: post) i j high
        = Done (pre ++ As' ++ Bs' ++ pv :: post, Slice.len pre + Slice.len As')
      /\ Permutation (As' ++ Bs') (As ++ Bs ++ Cs)
      /\ Forall (below lt pv) As' /\ Forall (not_below lt pv) Bs'.
Proof.
  induction Cs as [|c Cs IH]; intros As Bs pre post pv fuel i j high Hi Hj Hh Hf HA HB.
  - exists As, Bs. len_norm.
    destruct fuel; cbn [partition_loop];
      (destruct (Z.ltb_spec j high); [lia|]);
      rewrite app_nil_r; subst i; repeat split; auto.
  - destruct fuel as [|fuel]; [cbn in Hf; lia|].
    cbn [partition_loop].
    pose proof (len_nonneg Cs) as HCs.
    rewrite len_cons in Hh.
    destruct (Z.ltb_spec j high) as [_|?]; [|lia].
    assert (Hgj : Slice.get (pre ++ As ++ Bs ++ (c :: Cs) ++ pv :: post) j = Done c).
    { replace (pre ++ As ++ Bs ++ (c :: Cs) ++ pv :: post)
        with ((pre ++ As ++ Bs) ++ c :: (Cs ++ pv :: post)) by (list_norm; done).
      apply get_middle. rewrite !len_app. lia. }
    assert (Hgh : Slice.get (pre ++ As ++ Bs ++ (c :: Cs) ++ pv :: post) high = Done pv).
    { replace (pre ++ As ++ Bs ++ (c :: Cs) ++ pv :: post)
        with ((pre ++ As ++ Bs ++ c :: Cs) ++ pv :: post) by (list_norm; done).
      apply get_middle. rewrite !len_app, len_cons. lia. }
    rewrite (less_reads _ _ _ _ _ Hgj Hgh). cbn [mbind exec_bind].
    destruct (lt c pv) eqn:Hc.
    + (* the element goes below the pivot: swap it to position i *)
      destruct Bs as [|b Bs].
      * len_norm. rewrite Z.add_0_r in Hj. subst j.
        replace (pre ++ As ++ [] ++ (c :: Cs) ++ pv :: post)
          with ((pre ++ As) ++ c :: (Cs ++ pv :: post)) by (list_norm; done).
        rewrite swap_same by (rewrite len_app; lia). cbn [mbind exec_bind].
        replace ((pre ++ As) ++ c :: (Cs ++ pv :: post))
          with (pre ++ (As ++ [c]) ++ [] ++ Cs ++ pv :: post) by (list_norm; done).
        destruct (IH (As ++ [c]) [] pre post pv fuel (i + 1) (i + 1) high)
          as (As' & Bs' & Hrun & Hperm & HA' & HB');
          [len_norm; lia | len_norm; lia | lia | cbn in Hf; lia | | constructor |].
        { apply Forall_app; split; [done|]. constructor; [exact Hc|constructor]. }
        exists As', Bs'. repeat split; auto.
        rewrite Hperm. list_norm. done.
      * rewrite len_cons in Hj. pose proof (len_nonneg Bs) as HBs.
        replace (pre ++ As ++ (b :: Bs) ++ (c :: Cs) ++ pv :: post)
          with ((pre ++ As) ++ b :: Bs ++ c :: (Cs ++ pv :: post)) by (list_norm; done).
        rewrite swap_apart by (rewrite ?len_app; lia). cbn [mbind exec_bind].
        replace ((pre ++ As) ++ c :: Bs ++ b :: (Cs ++ pv :: post))
          with (pre ++ (As ++ [c]) ++ (Bs ++ [b]) ++ Cs ++ pv :: post) by (list_norm; done).
        pose proof (Forall_inv HB) as Hb. pose proof (Forall_inv_tail HB) as HBs'.
        destruct (IH (As ++ [c]) (Bs ++ [b]) pre post pv fuel (i + 1) (j + 1) high)
          as (As' & Bs' & Hrun & Hperm & HA' & HB');
          [len_norm; lia | len_norm; lia | lia | cbn in Hf; lia | | |].
        { apply Forall_app; split; [done|]. constructor; [exact Hc|constructor]. }
        { apply Forall_app; split; [done|]. constructor; [exact Hb|constructor]. }
        exists As', Bs'. split; [exact Hrun|]. split; [|done].
        rewrite Hperm. list_norm.
        apply Permutation_app_head. cbn.
        change (c :: Bs ++ b :: Cs) with ([c] ++ Bs ++ [b] ++ Cs).
        change (b :: Bs ++ c :: Cs) with ([b] ++ Bs ++ [c] ++ Cs).
        rewrite (Permutation_app_swap_app [c] Bs), (Permutation_app_swap_app [b] Bs).
        apply Permutation_app_head. cbn. apply perm_swap.
    + (* the element stays above: only j moves *)
      replace (pre ++ As ++ Bs ++ (c :: Cs) ++ pv :: post)
        with (pre ++ As ++ (Bs ++ [c]) ++ Cs ++ pv :: post) by (list_norm; done).
      destruct (IH As (Bs ++ [c]) pre post pv fuel i (j + 1) high)
        as (As' & Bs' & Hrun & Hperm & HA' & HB');
        [lia | len_norm; lia | lia | cbn in Hf; lia | done | |].
      { apply Forall_app; split; [done|]. constructor; [exact Hc|constructor]. }
      exists As', Bs'. repeat split; auto.
      rewrite Hperm. list_norm. done.
Qed.

(** [partition] on the segment [mid ++ [pv]] that starts at [low]: the pivot
    [pv] ends between the elements below it and the others, and its index is
    returned. *)
Lemma partition_spec (pre mid : list A) (pv : A) (post : list A) (low high : Z) :
  low = Slice.len pre -> high = low + Slice.len mid ->
  exists L R,
    partition less (pre ++ mid ++ pv :: post) low high
      = Done (pre ++ L ++ pv :: R ++ post, low + Slice.len L)
    /\ Permutation (L ++ R) mid
    /\ Forall (below lt pv) L /\ Forall (not_below lt pv) R.
Proof.
  intros Hlow Hhigh. unfold partition.
  destruct (partition_loop_spec mid [] [] pre post pv
              (Z.to_nat (high - low)) low low high)
    as (As & Bs & Hrun & Hperm & HA & HB);
    [len_norm; lia | len_norm; lia | lia | unfold Slice.len in *; lia
    | constructor | constructor |].
  cbn [app] in Hrun, Hperm. rewrite Hrun. cbn [mbind exec_bind].
  assert (Hlen : Slice.len As + Slice.len Bs = Slice.len mid).
  { rewrite <- len_app. unfold Slice.len. by rewrite (Permutation_length Hperm). }
  destruct Bs as [|b Bs].
  - len_norm. exists As, []. rewrite app_nil_r in Hperm.
    replace (pre ++ As ++ [] ++ pv :: post) with ((pre ++ As) ++ pv :: post)
      by (list_norm; done).
    replace high with (Slice.len pre + Slice.len As) by lia.
    rewrite swap_same by (rewrite len_app; lia). cbn [mbind exec_bind].
    list_norm. subst low. rewrite app_nil_r. by repeat split.
  - len_norm. pose proof (len_nonneg Bs).
    exists As, (Bs ++ [b]).
    replace (pre ++ As ++ (b :: Bs) ++ pv :: post)
      with ((pre ++ As) ++ b :: Bs ++ pv :: post) by (list_norm; done).
    rewrite swap_apart by (rewrite ?len_app; lia). cbn [mbind exec_bind].
    list_norm. subst low. split; [done|]. split; [|split; [done|]].
    + rewrite <- Hperm. apply Permutation_app_head.
      symmetry. apply Permutation_cons_append.
    + apply Forall_app. split; [exact (Forall_inv_tail HB)|].
      constructor; [exact (Forall_inv HB)|constructor].
Qed.

(** The result of [partition] lies in the segment, so both recursive calls
    of [quickSort] get a strictly shorter one. *)
Lemma partition_index_range (pre mid : list A) (pv : A) (post : list A)
    (low high : Z) :
  low = Slice.len pre -> high = low + Slice.len mid ->
  exists entries' p,
    partition less (pre ++ mid ++ pv :: post) low high = Done (entries', p)
    /\ low <= p <= high
    /\ length entries' = length (pre ++ mid ++ pv :: post).
Proof.
  intros Hlow Hhigh.
  destruct (partition_spec pre mid pv post low high Hlow Hhigh)
    as (L & R & Hrun & Hperm & _).
  exists (pre ++ L ++ pv :: R ++ post), (low + Slice.len L).
  split; [exact Hrun|].
  apply Permutation_length in Hperm. rewrite length_app in Hperm.
  split.
  - unfold Slice.len in *. lia.
  - rewrite !length_app. cbn [length]. rewrite !length_app. lia.
Qed.

Hypothesis lt_asym : forall a b, lt a b = true -> lt b a = false.
Hypothesis lt_trans : forall a b c, lt a b = true -> lt b c = true -> lt a c = true.


(** [quickSort] on the segment [mid] that starts at [low]: the segment is
    permuted into ascending order, the rest of the slice is untouched, and a
    budget of [length mid] is enough. *)
Lemma quickSort_spec (fuel : nat) :
  forall (mid pre post : list A) (low high : Z),
    (length mid <= fuel)%nat ->
    low = Slice.len pre -> high = low + Slice.len mid - 1 ->
    exists mid',
      quickSort less fuel (pre ++ mid ++ post) low high
        = Done (pre ++ mid' ++ post)
      /\ Permutation mid' mid /\ StronglySorted (ascending lt) mid'.
Proof.
  induction fuel as [|fuel IH]; intros mid pre post low high Hf Hlow Hhigh.
  - destruct mid; [|cbn in Hf; lia]. len_norm. cbn [quickSort].
    destruct (Z.ltb_spec low high); [lia|].
    exists []. repeat split; [done|constructor].
  - cbn [quickSort]. destruct (Z.ltb_spec low high) as [Hlt|Hge].
    + destruct mid as [|pv mid0 _] using rev_ind; [len_norm; lia|].
      rewrite length_app in Hf. cbn [length] in Hf.
      len_norm. rewrite Z.add_0_r in Hhigh.
      destruct (partition_spec pre mid0 pv post low high)
        as (L & R & Hrun & Hperm & HL & HR); [done|lia|].
      replace (pre ++ (mid0 ++ [pv]) ++ post) with (pre ++ mid0 ++ pv :: post)
        by (list_norm; done).
      rewrite Hrun. cbn [mbind exec_bind].
      pose proof (Permutation_length Hperm) as Hlen. rewrite length_app in Hlen.
      destruct (IH L pre (pv :: R ++ post) low (low + Slice.len L - 1))
        as (L' & HrunL & HpermL & HsortL); [lia|done|lia|].
      rewrite HrunL. cbn [mbind exec_bind].
      pose proof (Permutation_length HpermL) as HlenL.
      replace (pre ++ L' ++ pv :: R ++ post) with ((pre ++ L' ++ [pv]) ++ R ++ post)
        by (list_norm; done).
      destruct (IH R (pre ++ L' ++ [pv]) post (low + Slice.len L + 1) high)
        as (R' & HrunR & HpermR & HsortR);
        [lia | len_norm; unfold Slice.len in *; lia | unfold Slice.len in *; lia |].
      rewrite HrunR. exists (L' ++ pv :: R'). split; [by list_norm|]. split.
      * rewrite HpermL, HpermR, <- Hperm. symmetry.
        rewrite <- Permutation_cons_append. apply Permutation_middle.
      * apply StronglySorted_app_2; [|done|].
        -- intros a b Ha Hb. unfold ascending.
           rewrite HpermL in Ha. rewrite Forall_forall in HL, HR.
           apply elem_of_cons in Hb as [->|Hb].
           ++ apply lt_asym, HL, Ha.
           ++ rewrite HpermR in Hb. destruct (lt b a) eqn:Hba; [|done].
              rewrite <- (HR b Hb). symmetry. eapply lt_trans; [exact Hba|].
              apply HL, Ha.
        -- constructor; [done|]. rewrite HpermR. exact HR.
    + exists mid. split; [done|]. split; [done|].
      destruct mid as [|x [|y mid]].
      * constructor.
      * repeat constructor.
      * len_norm. pose proof (len_nonneg mid). lia.
Qed.
End QuickSortFacts.

Section QuickSortFuel.
Context {A : Type}.
Variable less : list A -> Z -> Z -> exec bool.

Lemma quickSort_fuel_S (fuel : nat) :
  forall (s : list A) (low high : Z) (r : list A),
    quickSort less fuel s low high = Done r ->
    quickSort less (S fuel) s low high = Done r.
Proof.
  induction fuel as [|fuel IH]; intros s low high r Hrun.
  - cbn [quickSort] in *. destruct (low <? high); [discriminate|done].
  - remember (S fuel) as f eqn:Hf. cbn [quickSort]. subst f.
    cbn [quickSort] in Hrun. destruct (low <? high); [|done].
    destruct (partition less s low high) as [[s1 p]| |]; [|discriminate..].
    cbn [mbind exec_bind] in *.
    destruct (quickSort less fuel s1 low (p - 1)) as [s2| |] eqn:H1;
      [|discriminate..].
    cbn [mbind exec_bind] in *.
    rewrite (IH _ _ _ _ H1). cbn [mbind exec_bind]. by apply IH.
Qed.

(** Once the budget is enough, more of it changes nothing. *)
Lemma quickSort_fuel_mono (fuel fuel' : nat) (s : list A) (low high : Z)
    (r : list A) :
  (fuel <= fuel')%nat ->
  quickSort less fuel s low high = Done r ->
  quickSort less fuel' s low high = Done r.
Proof.
  intros Hle Hrun. induction Hle as [|m _ IH]; [done|].
  by apply quickSort_fuel_S.
Qed.
End QuickSortFuel.

Lemma segment_split {A : Type} (s : list A) (low high : Z) :
  0 <= low -> low <= high -> high < Slice.len s ->
  exists pre mid pv post,
    s = pre ++ mid ++ pv :: post
    /\ low = Slice.len pre /\ high = low + Slice.len mid.
Proof.
  intros H0 Hlh Hh. unfold Slice.len in *.
  set (rest := drop (Z.to_nat low) s).
  destruct (drop (Z.to_nat (high - low)) rest) as [|pv post] eqn:Hd.
  { apply (f_equal length) in Hd. subst rest.
    rewrite !length_drop in Hd. cbn in Hd. lia. }
  exists (take (Z.to_nat low) s), (take (Z.to_nat (high - low)) rest), pv, post.
  split; [|split].
  - rewrite <- Hd, take_drop. subst rest. by rewrite take_drop.
  - rewrite length_take. lia.
  - rewrite !length_take. subst rest. rewrite length_drop. lia.
Qed.

(** ** The order on names *)

Lemma str_gt_lt (a b : string) : str_gt a b = str_lt b a.
Proof.
  unfold str_gt, str_lt. rewrite (String.compare_antisym b a).
  by destruct (String.compare a b).
Qed.

Lemma str_lt_asym (a b : string) : str_lt a b = true -> str_lt b a = false.
Proof.
  unfold str_lt. rewrite (String.compare_antisym b a).
  by destruct (String.compare a b).
Qed.

Lemma str_lt_trans (a b c : string) :
  str_lt a b = true -> str_lt b c = true -> str_lt a c = true.
Proof.
  unfold str_lt. intros Hab Hbc.
  assert (String_as_OT.lt a b) as Lab
    by (apply String_as_OT.cmp_lt; unfold String_as_OT.cmp;
        by destruct (String.compare a b)).
  assert (String_as_OT.lt b c) as Lbc
    by (apply String_as_OT.cmp_lt; unfold String_as_OT.cmp;
        by destruct (String.compare b c)).
  pose proof (String_as_OT.lt_trans _ _ _ Lab Lbc) as Lac.
  apply String_as_OT.cmp_lt in Lac. unfold String_as_OT.cmp in Lac.
  by rewrite Lac.
Qed.

Lemma str_lt_false_leb (a b : string) :
  str_lt b a = false <-> String.leb a b = true.
Proof.
  unfold str_lt, String.leb. rewrite (String.compare_antisym a b).
  destruct (String.compare b a); cbn; split; congruence.
Qed.

Section EntryOrder.
Context `{W : World}.

Lemma entry_lt_asym (r : bool) (a b : FileInfo) :
  entry_lt r a b = true -> entry_lt r b a = false.
Proof.
  unfold entry_lt. destruct r; rewrite ?str_gt_lt; apply str_lt_asym.
Qed.

Lemma entry_lt_trans (r : bool) (a b c : FileInfo) :
  entry_lt r a b = true -> entry_lt r b c = true -> entry_lt r a c = true.
Proof.
  unfold entry_lt. destruct r; rewrite ?str_gt_lt; intros H1 H2.
  - exact (str_lt_trans _ _ _ H2 H1).
  - exact (str_lt_trans _ _ _ H1 H2).
Qed.

Lemma less_reads_entries (r : bool) (s : list FileInfo) (i j : Z)
    (a b : FileInfo) :
  Slice.get s i = Done a -> Slice.get s j = Done b ->
  less r s i j = Done (entry_lt r a b).
Proof.
  intros Ha Hb. unfold less, entry_lt. rewrite Ha, Hb. by destruct r.
Qed.

Lemma ascending_forward (a b : FileInfo) :
  ascending (entry_lt false) a b <-> name_le a b.
Proof. unfold ascending, entry_lt, name_le, foldedName. apply str_lt_false_leb. Qed.

Lemma ascending_backward (a b : FileInfo) :
  ascending (entry_lt true) a b <-> name_le b a.
Proof.
  unfold ascending, entry_lt, name_le, foldedName. rewrite str_gt_lt.
  apply str_lt_false_leb.
Qed.

(** The sort of [readDir] on any slice: it ends normally, with a permutation
    of the slice in the order of [less]. *)
Lemma sortEntries_spec (r : bool) (l : list FileInfo) :
  exists s,
    sortEntries r l = Done s
    /\ Permutation s l /\ StronglySorted (ascending (entry_lt r)) s.
Proof.
  unfold sortEntries.
  destruct (quickSort_spec (less r) (entry_lt r) (less_reads_entries r)
              (entry_lt_asym r) (entry_lt_trans r)
              (length l) l [] [] 0 (Slice.len l - 1))
    as (s & Hrun & Hperm & Hsort); [lia|done|lia|].
  cbn [app] in Hrun. rewrite !app_nil_r in Hrun. by exists s.
Qed.

Lemma StronglySorted_iff {A : Type} (R1 R2 : relation A) (l : list A) :
  (forall a b, R1 a b <-> R2 a b) ->
  StronglySorted R1 l -> StronglySorted R2 l.
Proof.
  intros HR. induction 1 as [|x l _ IH Hx]; constructor; [done|].
  eapply Forall_impl; [exact Hx|]. intros b. apply HR.
Qed.

Lemma sortEntries_sorted (r : bool) (l : list FileInfo) :
  exists s,
    sortEntries r l = Done s
    /\ Permutation s l
    /\ StronglySorted (if r then flip name_le else name_le) s.
Proof.
  destruct (sortEntries_spec r l) as (s & Hrun & Hperm & Hsort).
  exists s. split; [done|]. split; [done|]. destruct r.
  - eapply StronglySorted_iff; [|exact Hsort]. apply ascending_backward.
  - eapply StronglySorted_iff; [|exact Hsort]. apply ascending_forward.
Qed.
End EntryOrder.

(** ** The directory reader *)

Lemma hasDotPrefix_spec (name : string) :
  hasDotPrefix name = true <-> exists rest, name = String "." rest.
Proof.
  unfold hasDotPrefix. destruct name as [|c rest]; cbn [String.prefix].
  - split; [discriminate|]. by intros [? ?].
  - destruct (Ascii.ascii_dec "." c) as [<-|Hne].
    + split; [by eexists|]. by destruct rest.
    + split; [discriminate|]. intros [rest' Heq].
      injection Heq as Hc _. by destruct Hne.
Qed.

Lemma filterEntries_shown `{W : World} (entries : list FileInfo) :
  filterEntries true entries = entries.
Proof. induction entries as [|e rest IH]; cbn; [done|]. by rewrite IH. Qed.

Lemma filterEntries_hidden `{W : World} (entries : list FileInfo) :
  filterEntries false entries
  = List.filter (fun e => negb (hasDotPrefix (Name e))) entries.
Proof.
  induction entries as [|e rest IH]; cbn; [done|].
  rewrite IH. by destruct (hasDotPrefix (Name e)).
Qed.

(** C1: on a directory that can be opened and read, [readDir] returns a
    permutation of the filtered children, in ascending case-insensitive name
    order, or in descending order when [reverse] is set. *)
Theorem readDir_sorted_permutation `{W : World} (path : string)
    (showHidden reverse : bool) (f : File) (entries : list FileInfo) :
  os_Open path = Ok f -> File_Readdir f = Ok entries ->
  exists sorted,
    readDir path showHidden reverse = Done (Ok sorted)
    /\ Permutation sorted (filterEntries showHidden entries)
    /\ StronglySorted (if reverse then flip name_le else name_le) sorted.
Proof.
  intros Hopen Hread. unfold readDir. rewrite Hopen, Hread.
  destruct (sortEntries_sorted reverse (filterEntries showHidden entries))
    as (s & Hrun & Hperm & Hsort).
  exists s. by rewrite Hrun.
Qed.

Lemma readDir_sorted_permutation_witness :
  exists sorted,
    readDir (W := Demo.world) "root" false true = Done (Ok sorted)
    /\ Permutation sorted (filterEntries false Demo.rootEntries)
    /\ StronglySorted (flip name_le) sorted.
Proof.
  apply (readDir_sorted_permutation (W := Demo.world) "root" false true
           "root"%string Demo.rootEntries); reflexivity.
Defined.

(** C2: with show-hidden off, [readDir] yields exactly the entries whose names
    do not start with a dot; with show-hidden on, it drops none. *)
Theorem readDir_hidden_filter `{W : World} (path : string)
    (showHidden reverse : bool) (f : File) (entries : list FileInfo) :
  os_Open path = Ok f -> File_Readdir f = Ok entries ->
  exists listed,
    readDir path showHidden reverse = Done (Ok listed)
    /\ Permutation listed
         (if showHidden then entries
          else List.filter (fun e => negb (hasDotPrefix (Name e))) entries).
Proof.
  intros Hopen Hread. unfold readDir. rewrite Hopen, Hread.
  destruct (sortEntries_spec reverse (filterEntries showHidden entries))
    as (s & Hrun & Hperm & _).
  exists s. rewrite Hrun. split; [done|]. rewrite Hperm. destruct showHidden.
  - by rewrite filterEntries_shown.
  - by rewrite filterEntries_hidden.
Qed.

Lemma readDir_hidden_filter_witness :
  exists listed,
    readDir (W := Demo.world) "root" false false = Done (Ok listed)
    /\ Permutation listed
         (List.filter (fun e => negb (hasDotPrefix (Name e))) Demo.rootEntries).
Proof.
  apply (readDir_hidden_filter (W := Demo.world) "root" false false
           "root"%string Demo.rootEntries); reflexivity.
Defined.

(** ** Termination and bounds of the sort *)

(** C9: the call [quickSort(entries, 0, len(entries)-1, less)] ends normally
    (no index out of range, and a recursion budget of [len(entries)] is
    enough, beyond which the result no longer changes); and on every segment
    [low < high] of a slice [partition] returns an index within the segment,
    so both recursive calls work on a strictly shorter segment. *)
Theorem quickSort_terminates_in_bounds `{W : World} (reverse : bool)
    (entries : list FileInfo) :
  (exists sorted,
     quickSort (less reverse) (length entries) entries 0
       (Slice.len entries - 1) = Done sorted
     /\ length sorted = length entries
     /\ forall fuel, (length entries <= fuel)%nat ->
          quickSort (less reverse) fuel entries 0 (Slice.len entries - 1)
          = Done sorted)
  /\ (forall low high,
        0 <= low -> low < high -> high < Slice.len entries ->
        exists entries' p,
          partition (less reverse) entries low high = Done (entries', p)
          /\ low <= p <= high
          /\ (p - 1) - low < high - low
          /\ high - (p + 1) < high - low
          /\ length entries' = length entries).
Proof.
  split.
  - destruct (sortEntries_spec reverse entries) as (s & Hrun & Hperm & _).
    unfold sortEntries in Hrun. exists s. split; [done|]. split.
    + by apply Permutation_length.
    + intros fuel Hle. by apply (quickSort_fuel_mono _ (length entries)).
  - intros low high H0 Hlt Hh.
    destruct (segment_split entries low high) as
      (pre & mid & pv & post & -> & Hlow & Hhigh); [lia..|].
    destruct (partition_index_range (less reverse) (entry_lt reverse)
                (less_reads_entries reverse) pre mid pv post low high Hlow Hhigh)
      as (entries' & p & Hrun & Hp & Hlen).
    exists entries', p. repeat split; try done; lia.
Qed.

Lemma quickSort_terminates_in_bounds_witness :
  exists entries' p,
    partition (less (W := Demo.world) false) Demo.rootEntries 1 4
      = Done (entries', p)
    /\ 1 <= p <= 4
    /\ (p - 1) - 1 < 4 - 1
    /\ 4 - (p + 1) < 4 - 1
    /\ length entries' = length Demo.rootEntries.
Proof.
  apply (proj2 (quickSort_terminates_in_bounds (W := Demo.world) false
                  Demo.rootEntries)); [lia | lia | reflexivity].
Defined.

(** ** Sorting twice, and sorting in reverse *)

Lemma StronglySorted_rev {A : Type} (R : relation A) (l : list A) :
  StronglySorted R l -> StronglySorted (flip R) (rev l).
Proof.
  induction 1 as [|x l _ IH Hx]; cbn [rev]; [constructor|].
  apply StronglySorted_app_2; [|done|repeat constructor].
  intros a b Ha Hb. apply list_elem_of_singleton in Hb as ->.
  rewrite Forall_forall in Hx. apply Hx.
  apply list_elem_of_In, in_rev, list_elem_of_In in Ha. done.
Qed.

Lemma NoDup_map_eq {A B : Type} (f : A -> B) (l : list A) (x y : A) :
  NoDup (map f l) -> x ∈ l -> y ∈ l -> f x = f y -> x = y.
Proof.
  induction l as [|a l IH]; cbn [map]; intros Hnd Hx Hy Hf.
  - by apply elem_of_nil in Hx.
  - apply NoDup_cons in Hnd as [Ha Hnd].
    apply elem_of_cons in Hx as [->|Hx]; apply elem_of_cons in Hy as [->|Hy].
    + done.
    + destruct Ha. rewrite Hf. apply list_elem_of_In, in_map, list_elem_of_In, Hy.
    + destruct Ha. rewrite <- Hf. apply list_elem_of_In, in_map, list_elem_of_In, Hx.
    + by apply IH.
Qed.

Section SortUnique.
Context `{W : World}.

Lemma ascending_both_ways (r : bool) (a b : FileInfo) :
  ascending (entry_lt r) a b -> ascending (entry_lt r) b a ->
  foldedName a = foldedName b.
Proof.
  unfold ascending, entry_lt, foldedName.
  destruct r; rewrite ?str_gt_lt; unfold str_lt;
    rewrite (String.compare_antisym (strings_ToLower (Name a))
               (strings_ToLower (Name b)));
    destruct (String.compare (strings_ToLower (Name b))
                (strings_ToLower (Name a))) eqn:Hc; cbn; try discriminate;
    intros _ _; apply String.compare_eq_iff in Hc; done.
Qed.

(** Entries with pairwise distinct folded names have one sorted order. *)
Lemma sorted_order_unique (r : bool) (x s1 s2 : list FileInfo) :
  NoDup (map foldedName x) ->
  Permutation s1 x -> Permutation s2 x ->
  StronglySorted (ascending (entry_lt r)) s1 ->
  StronglySorted (ascending (entry_lt r)) s2 ->
  s1 = s2.
Proof.
  intros Hnd H1 H2 Hs1 Hs2.
  apply (StronglySorted_unique_strong (ascending (entry_lt r))); try done.
  - intros a b Ha Hb Hab Hba. rewrite H1 in Ha. rewrite H2 in Hb.
    apply (NoDup_map_eq foldedName x); try done.
    by apply (ascending_both_ways r).
  - by rewrite H1, H2.
Qed.

Lemma ascending_flip (a b : FileInfo) :
  flip (ascending (entry_lt false)) a b <-> ascending (entry_lt true) a b.
Proof. unfold flip, ascending, entry_lt. by rewrite str_gt_lt. Qed.

End SortUnique.

(** C6, as the code has it: when the case-folded names are pairwise
    distinct, sorting a sorted list leaves it unchanged, in either direction,
    and the reverse of the ascending sort is the descending sort. *)
Theorem sort_idempotent_reverse_distinct `{W : World} (x : list FileInfo) :
  NoDup (map foldedName x) ->
  exists asc desc,
    sortEntries false x = Done asc /\ sortEntries true x = Done desc
    /\ sortEntries false asc = Done asc /\ sortEntries true desc = Done desc
    /\ rev asc = desc.
Proof.
  intros Hnd.
  destruct (sortEntries_spec false x) as (asc & Hasc & Hpa & Hsa).
  destruct (sortEntries_spec true x) as (desc & Hdesc & Hpd & Hsd).
  destruct (sortEntries_spec false asc) as (asc2 & Hasc2 & Hpa2 & Hsa2).
  destruct (sortEntries_spec true desc) as (desc2 & Hdesc2 & Hpd2 & Hsd2).
  exists asc, desc. split; [done|]. split; [done|].
  assert (asc2 = asc) as ->.
  { apply (sorted_order_unique false x); try done. by rewrite Hpa2. }
  assert (desc2 = desc) as ->.
  { apply (sorted_order_unique true x); try done. by rewrite Hpd2. }
  split; [done|]. split; [done|].
  apply (sorted_order_unique true x); try done.
  - by rewrite <- Permutation_rev.
  - eapply StronglySorted_iff; [apply ascending_flip|].
    by apply StronglySorted_rev.
Qed.

Lemma sort_idempotent_reverse_distinct_witness :
  exists asc desc,
    sortEntries (W := Demo.world) false Demo.rootEntries = Done asc
    /\ sortEntries true Demo.rootEntries = Done desc
    /\ sortEntries false asc = Done asc /\ sortEntries true desc = Done desc
    /\ rev asc = desc.
Proof.
  apply (sort_idempotent_reverse_distinct (W := Demo.world) Demo.rootEntries).
  vm_compute. repeat constructor; rewrite ?elem_of_cons, elem_of_nil;
    intros H; repeat destruct H as [H|H]; try discriminate H; exact H.
Defined.

(** C6 fails where two names differ by case only: the directory [twins]
    holds [a] and [A]; the ascending sort gives [A; a], sorting that again
    gives [a; A], and the descending sort gives [A; a], not the reverse. *)
Lemma sort_twins_counterexample :
  exists asc again desc,
    sortEntries (W := Demo.world) false Demo.twinEntries = Done asc
    /\ sortEntries false asc = Done again /\ again <> asc
    /\ sortEntries true Demo.twinEntries = Done desc /\ rev asc <> desc.
Proof.
  exists [Demo.file "A"; Demo.file "a"], [Demo.file "a"; Demo.file "A"],
    [Demo.file "A"; Demo.file "a"].
  repeat split; try reflexivity; discriminate.
Qed.

(** ** The tree printer *)

Section PrintFacts.
Context `{W : World}.
Variable rec : string -> string -> exec (list Event * option error).

Lemma printNode_child (name : string) (info : FileInfo) (opts : Options)
    (linePrefix : string) (printName : bool) (linkTarget : string)
    (isSymlink : bool) :
  printNode name info opts linePrefix false printName linkTarget isSymlink
  = [lineOf opts linePrefix
       (Render
          (if IsDir info then dirStyle
           else if hasDotPrefix name then hiddenStyle
           else if isSymlink then linkStyle else fileStyle)
          (if isSymlink && negb (String.eqb linkTarget "")
              && negb (noSymlink opts) && negb (derefLinks opts)
           then name +:+ " -> " +:+ linkTarget else name))
       info].
Proof.
  unfold printNode, lineOf.
  by destruct (IsDir info), (hasDotPrefix name), isSymlink, (longFormat opts).
Qed.

Lemma lineOf_prefix (opts : Options) (linePrefix styledName : string)
    (info : FileInfo) :
  exists text, lineOf opts linePrefix styledName info = Stdout (linePrefix +:+ text).
Proof. unfold lineOf. destruct (longFormat opts); by eexists. Qed.

Lemma printEntry_unfold (path : string) (opts : Options) (prefix : string)
    (isLast : bool) (entry : FileInfo) :
  printEntry rec path opts prefix isLast entry
  = let '(entry', entryPath, entryIsSymlink, linkTarget) :=
      resolveEntry opts entry (filepath_Join path (Name entry)) in
    let line :=
      printNode (Name entry') entry' opts
        (if isLast then prefix +:+ branch else prefix +:+ tee)
        false true linkTarget entryIsSymlink in
    if IsDir entry' then
      r ← rec entryPath (if isLast then prefix +:+ space else prefix +:+ pipe);
      Done (line ++ r.1 ++ dirWarning entryPath r.2)
    else Done line.
Proof.
  unfold printEntry.
  destruct (resolveEntry opts entry (filepath_Join path (Name entry)))
    as [[[entry' entryPath] entryIsSymlink] linkTarget].
  destruct (IsDir entry'); [|done].
  destruct (rec entryPath _) as [[sub [e|]]| |]; cbn; try done.
  by rewrite app_nil_r.
Qed.

(** Whatever the entry, its iteration starts with one line that begins with
    the inherited prefix and the glyph chosen by [isLast]. *)
Lemma printEntry_first_line (path : string) (opts : Options) (prefix : string)
    (isLast : bool) (entry : FileInfo) (chunk : list Event) :
  printEntry rec path opts prefix isLast entry = Done chunk ->
  exists text rest,
    chunk = Stdout ((prefix +:+ (if isLast then branch else tee)) +:+ text) :: rest.
Proof.
  rewrite printEntry_unfold.
  destruct (resolveEntry opts entry (filepath_Join path (Name entry)))
    as [[[entry' entryPath] entryIsSymlink] linkTarget].
  cbv zeta. rewrite printNode_child.
  match goal with |- context [lineOf ?o ?p ?n ?i] =>
    destruct (lineOf_prefix o p n i) as [text ->] end.
  replace (if isLast then prefix +:+ branch else prefix +:+ tee)
    with (prefix +:+ (if isLast then branch else tee)) by (by destruct isLast).
  destruct (IsDir entry').
  - destruct (rec entryPath _) as [[sub err]| |]; cbn; [|discriminate..].
    intros [= <-]. by eexists _, _.
  - intros [= <-]. by eexists _, _.
Qed.

(** The loop prints the entries one after the other, each with [isLast] set
    exactly at index [n - 1]. *)
Lemma printEntries_chunks (path : string) (opts : Options) (prefix : string)
    (n : Z) (entries : list FileInfo) :
  forall (i : Z) (out : list Event),
    printEntries rec path opts prefix n i entries = Done out ->
    exists chunks,
      out = concat chunks /\ length chunks = length entries
      /\ forall (k : nat) (entry : FileInfo),
           entries !! k = Some entry ->
           exists chunk,
             chunks !! k = Some chunk
             /\ printEntry rec path opts prefix (i + Z.of_nat k =? n - 1) entry
                = Done chunk.
Proof.
  induction entries as [|entry rest IH]; intros i out; cbn [printEntries].
  - intros [= <-]. exists []. repeat split; try done.
  - destruct (printEntry rec path opts prefix (i =? n - 1) entry)
      as [chunk| |] eqn:Hentry; cbn; [|discriminate..].
    destruct (printEntries rec path opts prefix n (i + 1) rest)
      as [outs| |] eqn:Hrest; cbn; [|discriminate..].
    intros [= <-]. destruct (IH _ _ Hrest) as (chunks & -> & Hlen & Hk).
    exists (chunk :: chunks). split; [done|]. split; [cbn; by rewrite Hlen|].
    intros [|k] e; cbn.
    + intros [= <-]. exists chunk. by rewrite Z.add_0_r.
    + intros He. destruct (Hk k e He) as (c & Hc & Hrun). exists c.
      split; [done|].
      by replace (i + Z.of_nat (S k)) with (i + 1 + Z.of_nat k) by lia.
Qed.
End PrintFacts.

Lemma isLast_index {A : Type} (entries : list A) (k : nat) :
  (0 + Z.of_nat k =? Slice.len entries - 1)
  = bool_decide (S k = length entries).
Proof.
  unfold Slice.len. case_bool_decide; [apply Z.eqb_eq|apply Z.eqb_neq]; lia.
Qed.

(** C3: in the listing of a directory the line of the last child starts with
    the inherited prefix followed by the branch glyph, and the line of every
    other child with the inherited prefix followed by the tee glyph. *)
Theorem last_child_branch_others_tee `{W : World} (fuel : nat) (path : string)
    (opts : Options) (prefix : string) (isRoot : bool)
    (entries : list FileInfo) (out : list Event) :
  readDir path (showHidden opts) (reverse opts) = Done (Ok entries) ->
  printTree (S fuel) path opts prefix isRoot = Done (out, None) ->
  exists rootLines chunks,
    out = rootLines ++ concat chunks
    /\ length rootLines = (if isRoot then 1%nat else 0%nat)
    /\ length chunks = length entries
    /\ forall (k : nat) (entry : FileInfo),
         entries !! k = Some entry ->
         let isLast := bool_decide (S k = length entries) in
         exists text rest,
           chunks !! k
           = Some (Stdout ((prefix +:+ (if isLast then branch else tee)) +:+ text)
                   :: rest)
           /\ printEntry (fun p pre => printTree fuel p opts pre false)
                path opts prefix isLast entry
              = Done (Stdout ((prefix +:+ (if isLast then branch else tee)) +:+ text)
                      :: rest).
Proof.
  intros Hread. cbn [printTree]. unfold printTree_body.
  destruct (os_Lstat path) as [info|e]; [|discriminate].
  rewrite Hread. cbn [mbind exec_bind].
  destruct (printEntries _ path opts prefix (Slice.len entries) 0 entries)
    as [body| |] eqn:Hloop; cbn [mbind exec_bind]; [|discriminate..].
  intros [= <-].
  destruct (printEntries_chunks _ _ _ _ _ _ _ _ Hloop) as (chunks & -> & Hlen & Hk).
  eexists _, chunks. split; [reflexivity|]. split.
  { by destruct isRoot. }
  split; [done|]. intros k entry Hentry. cbv zeta.
  destruct (Hk k entry Hentry) as (chunk & Hchunk & Hrun).
  rewrite isLast_index in Hrun.
  destruct (printEntry_first_line _ _ _ _ _ _ _ Hrun) as (text & rest & ->).
  by exists text, rest.
Qed.

Lemma last_child_branch_others_tee_witness :
  exists rootLines chunks,
    [Stdout "twins"; Stdout "├─ A"; Stdout "╰─ a"] = rootLines ++ concat chunks
    /\ length rootLines = 1%nat
    /\ length chunks = 2%nat
    /\ forall (k : nat) (entry : FileInfo),
         [Demo.file "A"; Demo.file "a"] !! k = Some entry ->
         let isLast := bool_decide (S k = 2%nat) in
         exists text rest,
           chunks !! k
           = Some (Stdout (("" +:+ (if isLast then branch else tee)) +:+ text)
                   :: rest)
           /\ printEntry (W := Demo.world)
                (fun p pre => printTree 1 p Demo.defaults pre false)
                "twins" Demo.defaults "" isLast entry
              = Done (Stdout (("" +:+ (if isLast then branch else tee)) +:+ text)
                      :: rest).
Proof.
  apply (last_child_branch_others_tee (W := Demo.world) 1 "twins"
           Demo.defaults "" true [Demo.file "A"; Demo.file "a"]
           [Stdout "twins"; Stdout "├─ A"; Stdout "╰─ a"]); reflexivity.
Defined.

(** C4: a symlink entry, with neither dereference-links nor no-symlink set,
    is shown as [name -> target], where [target] is what [os.Readlink] gives
    for it, and the iteration ends there: the recursive call is not made,
    whatever the target is.  (The metadata of the link itself, as [Readdir]
    reports it, is not that of a directory.) *)
Theorem symlink_shown_not_followed `{W : World}
    (rec : string -> string -> exec (list Event * option error))
    (path : string) (opts : Options) (prefix : string) (isLast : bool)
    (entry : FileInfo) (target : string) :
  Z.land (Mode entry) ModeSymlink <> 0 ->
  IsDir entry = false ->
  derefLinks opts = false -> noSymlink opts = false ->
  os_Readlink (filepath_Join path (Name entry)) = Ok target ->
  target <> ""%string ->
  printEntry rec path opts prefix isLast entry
  = Done [lineOf opts (prefix +:+ (if isLast then branch else tee))
            (Render (if hasDotPrefix (Name entry) then hiddenStyle else linkStyle)
               (Name entry +:+ " -> " +:+ target))
            entry].
Proof.
  intros Hsym Hdir Hderef Hno Hlink Htarget.
  rewrite printEntry_unfold. unfold resolveEntry.
  apply Z.eqb_neq in Hsym. rewrite Hsym, Hderef, Hno, Hlink.
  cbn -[printNode lineOf IsDir].
  rewrite Hdir, printNode_child, Hdir, Hderef, Hno.
  apply String.eqb_neq in Htarget. rewrite Htarget.
  cbn -[lineOf]. by destruct isLast.
Qed.

(** When [os.Readlink] fails on the entry, the same branch shows the plain
    name, again without a recursive call. *)
Lemma symlink_unreadable_target `{W : World}
    (rec : string -> string -> exec (list Event * option error))
    (path : string) (opts : Options) (prefix : string) (isLast : bool)
    (entry : FileInfo) (e : error) :
  Z.land (Mode entry) ModeSymlink <> 0 ->
  IsDir entry = false ->
  derefLinks opts = false -> noSymlink opts = false ->
  os_Readlink (filepath_Join path (Name entry)) = Err e ->
  printEntry rec path opts prefix isLast entry
  = Done [lineOf opts (prefix +:+ (if isLast then branch else tee))
            (Render (if hasDotPrefix (Name entry) then hiddenStyle else linkStyle)
               (Name entry))
            entry].
Proof.
  intros Hsym Hdir Hderef Hno Hlink.
  rewrite printEntry_unfold. unfold resolveEntry.
  apply Z.eqb_neq in Hsym. rewrite Hsym, Hderef, Hno, Hlink.
  cbn -[printNode lineOf IsDir].
  rewrite Hdir, printNode_child, Hdir.
  cbn -[lineOf]. by destruct isLast.
Qed.

(** C5: with dereference-links set, a symlink entry whose final target
    resolves is processed as the target: its line shows the target's name and
    metadata, and when the target is a directory the recursive call is made on
    the target's path, under the prefix of the link's position.  When the
    resolution fails the entry stays a symlink: its line shows the plain name
    and the recursive call is not made. *)
Theorem dereferenced_link `{W : World}
    (rec : string -> string -> exec (list Event * option error))
    (path : string) (opts : Options) (prefix : string) (isLast : bool)
    (entry : FileInfo) :
  Z.land (Mode entry) ModeSymlink <> 0 ->
  derefLinks opts = true ->
  let entryPath := filepath_Join path (Name entry) in
  let linePrefix := prefix +:+ (if isLast then branch else tee) in
  let newPrefix := prefix +:+ (if isLast then space else pipe) in
  (forall targetPath targetInfo,
     filepath_EvalSymlinks entryPath = Ok targetPath ->
     os_Stat targetPath = Ok targetInfo ->
     let line :=
       lineOf opts linePrefix
         (Render
            (if IsDir targetInfo then dirStyle
             else if hasDotPrefix (Name targetInfo) then hiddenStyle
             else fileStyle)
            (Name targetInfo))
         targetInfo in
     printEntry rec path opts prefix isLast entry
     = if IsDir targetInfo then
         r ← rec targetPath newPrefix;
         Done ([line] ++ r.1 ++ dirWarning targetPath r.2)
       else Done [line])
  /\ ((exists e, filepath_EvalSymlinks entryPath = Err e)
      \/ (exists targetPath e,
            filepath_EvalSymlinks entryPath = Ok targetPath
            /\ os_Stat targetPath = Err e) ->
      IsDir entry = false ->
      printEntry rec path opts prefix isLast entry
      = Done [lineOf opts linePrefix
                (Render
                   (if hasDotPrefix (Name entry) then hiddenStyle else linkStyle)
                   (Name entry))
                entry]).
Proof.
  intros Hsym Hderef entryPath linePrefix newPrefix.
  apply Z.eqb_neq in Hsym.
  assert (Hlp : (if isLast then prefix +:+ branch else prefix +:+ tee) = linePrefix)
    by (unfold linePrefix; by destruct isLast).
  assert (Hnp : (if isLast then prefix +:+ space else prefix +:+ pipe) = newPrefix)
    by (unfold newPrefix; by destruct isLast).
  split.
  - intros targetPath targetInfo Heval Hstat line.
    rewrite printEntry_unfold. unfold resolveEntry.
    fold entryPath. rewrite Hsym, Hderef, Heval, Hstat.
    cbn -[printNode lineOf IsDir].
    rewrite printNode_child, Hlp, Hnp. cbn -[lineOf IsDir]. fold line.
    by destruct (IsDir targetInfo).
  - intros Hfail Hdir.
    rewrite printEntry_unfold. unfold resolveEntry.
    fold entryPath. rewrite Hsym, Hderef. cbn -[printNode lineOf IsDir].
    assert (Hkeep :
      match filepath_EvalSymlinks entryPath with
      | Ok targetPath =>
          match os_Stat targetPath with
          | Ok targetInfo => (targetInfo, targetPath, false, ""%string)
          | Err _ => (entry, entryPath, true, ""%string)
          end
      | Err _ => (entry, entryPath, true, ""%string)
      end = (entry, entryPath, true, ""%string)).
    { destruct Hfail as [[e ->]|(tp & e & -> & ->)]; done. }
    rewrite Hkeep. cbn -[printNode lineOf IsDir].
    by rewrite Hdir, printNode_child, Hdir, Hlp.
Qed.

Lemma symlink_shown_not_followed_witness :
  printEntry (W := Demo.world) (fun _ _ => Panic) "root" Demo.defaults ""
    false (Demo.symlink "link")
  = Done [Stdout "├─ link -> sub"].
Proof.
  apply (symlink_shown_not_followed (W := Demo.world) (fun _ _ => Panic)
           "root" Demo.defaults "" false (Demo.symlink "link") "sub");
    try reflexivity; discriminate.
Defined.

Lemma dereferenced_link_witness :
  printEntry (W := Demo.world)
    (fun p pre => printTree 1 p Demo.withDeref pre false)
    "root" Demo.withDeref "" false (Demo.symlink "link")
  = Done [Stdout "├─ sub"; Stdout "│  ╰─ b.txt"]
  /\ printEntry (W := Demo.world) (fun _ _ => Panic)
       "root" Demo.withDeref "" true (Demo.symlink "dangling")
     = Done [Stdout "╰─ dangling"].
Proof.
  split.
  - apply (proj1 (dereferenced_link (W := Demo.world)
                    (fun p pre => printTree 1 p Demo.withDeref pre false)
                    "root" Demo.withDeref "" false (Demo.symlink "link")
                    ltac:(discriminate) eq_refl)
             "root/sub"%string (Demo.dir "sub")); reflexivity.
  - apply (proj2 (dereferenced_link (W := Demo.world) (fun _ _ => Panic)
                    "root" Demo.withDeref "" true (Demo.symlink "dangling")
                    ltac:(discriminate) eq_refl)).
    + left. by exists Demo.enoent.
    + reflexivity.
Defined.

(** ** The recursion budget of the printer *)

Section PrintFuel.
Context `{W : World}.
Variables rec1 rec2 : string -> string -> exec (list Event * option error).
Hypothesis rec_mono : forall p pre r, rec1 p pre = Done r -> rec2 p pre = Done r.

Lemma printEntry_mono (path : string) (opts : Options) (prefix : string)
    (isLast : bool) (entry : FileInfo) (out : list Event) :
  printEntry rec1 path opts prefix isLast entry = Done out ->
  printEntry rec2 path opts prefix isLast entry = Done out.
Proof.
  rewrite !printEntry_unfold.
  destruct (resolveEntry opts entry _) as [[[entry' entryPath] isSym] target].
  cbv zeta. destruct (IsDir entry'); [|done].
  destruct (rec1 entryPath _) as [r| |] eqn:Hrec; cbn; [|discriminate..].
  by rewrite (rec_mono _ _ _ Hrec).
Qed.

Lemma printEntries_mono (path : string) (opts : Options) (prefix : string)
    (n : Z) (entries : list FileInfo) :
  forall i out,
    printEntries rec1 path opts prefix n i entries = Done out ->
    printEntries rec2 path opts prefix n i entries = Done out.
Proof.
  induction entries as [|entry rest IH]; intros i out; [done|].
  cbn [printEntries].
  destruct (printEntry rec1 path opts prefix (i =? n - 1) entry)
    as [o| |] eqn:Hentry; cbn; [|discriminate..].
  rewrite (printEntry_mono _ _ _ _ _ _ Hentry). cbn.
  destruct (printEntries rec1 path opts prefix n (i + 1) rest)
    as [os| |] eqn:Hrest; cbn; [|discriminate..].
  by rewrite (IH _ _ Hrest).
Qed.
End PrintFuel.

(** A run of [printTree] that ends within its budget ends with the same
    output under any larger budget. *)
Lemma printTree_fuel_S `{W : World} (opts : Options) (fuel : nat) :
  forall path prefix isRoot r,
    printTree fuel path opts prefix isRoot = Done r ->
    printTree (S fuel) path opts prefix isRoot = Done r.
Proof.
  induction fuel as [|fuel IH]; intros path prefix isRoot r; [discriminate|].
  change (printTree (S (S fuel)) path opts prefix isRoot)
    with (printTree_body (fun p pre => printTree (S fuel) p opts pre false)
            path opts prefix isRoot).
  change (printTree (S fuel) path opts prefix isRoot)
    with (printTree_body (fun p pre => printTree fuel p opts pre false)
            path opts prefix isRoot).
  unfold printTree_body.
  destruct (os_Lstat path) as [info|e]; [|done].
  destruct (readDir _ _ _) as [[entries|e]| |]; cbn [mbind exec_bind]; try done.
  destruct (printEntries _ path opts prefix _ 0 entries) as [out| |] eqn:Hloop;
    cbn [mbind exec_bind]; [|discriminate..].
  rewrite (printEntries_mono _ (fun p pre => printTree (S fuel) p opts pre false)
             (fun p pre r => IH p pre false r) _ _ _ _ _ _ _ Hloop).
  done.
Qed.

Lemma printTree_fuel_mono `{W : World} (opts : Options) (fuel fuel' : nat)
    (path prefix : string) (isRoot : bool) (r : list Event * option error) :
  (fuel <= fuel')%nat ->
  printTree fuel path opts prefix isRoot = Done r ->
  printTree fuel' path opts prefix isRoot = Done r.
Proof.
  intros Hle Hrun. induction Hle as [|m _ IH]; [done|].
  by apply printTree_fuel_S.
Qed.

(** ** Termination of the printer on finite trees *)





(** ** The max-depth option *)

Section MaxDepth.
Context `{W : World}.

Lemma printNode_sameButMaxDepth (o1 o2 : Options) (name : string)
    (info : FileInfo) (prefix : string) (isRoot printName : bool)
    (linkTarget : string) (isSymlink : bool) :
  sameButMaxDepth o1 o2 ->
  printNode name info o1 prefix isRoot printName linkTarget isSymlink
  = printNode name info o2 prefix isRoot printName linkTarget isSymlink.
Proof.
  intros (_ & Hlong & _ & Hderef & Hno). unfold printNode.
  by rewrite Hlong, Hderef, Hno.
Qed.

Lemma resolveEntry_sameButMaxDepth (o1 o2 : Options) (entry : FileInfo)
    (entryPath : string) :
  sameButMaxDepth o1 o2 ->
  resolveEntry o1 entry entryPath = resolveEntry o2 entry entryPath.
Proof.
  intros (_ & _ & _ & Hderef & Hno). unfold resolveEntry.
  by rewrite Hderef, Hno.
Qed.

Lemma printEntries_sameButMaxDepth
    (rec1 rec2 : string -> string -> exec (list Event * option error))
    (o1 o2 : Options) (path prefix : string) (n : Z) (entries : list FileInfo) :
  sameButMaxDepth o1 o2 ->
  (forall p pre, rec1 p pre = rec2 p pre) ->
  forall i,
    printEntries rec1 path o1 prefix n i entries
    = printEntries rec2 path o2 prefix n i entries.
Proof.
  intros Hsame Hrec. induction entries as [|entry rest IH]; intros i; [done|].
  cbn [printEntries]. rewrite IH. f_equal.
  unfold printEntry. rewrite (resolveEntry_sameButMaxDepth o1 o2) by done.
  destruct (resolveEntry o2 entry _) as [[[entry' entryPath] isSym] target].
  rewrite (printNode_sameButMaxDepth o1 o2) by done.
  by rewrite Hrec.
Qed.

Lemma printTree_sameButMaxDepth (o1 o2 : Options) (fuel : nat) :
  sameButMaxDepth o1 o2 ->
  forall path prefix isRoot,
    printTree fuel path o1 prefix isRoot = printTree fuel path o2 prefix isRoot.
Proof.
  intros Hsame. induction fuel as [|fuel IH]; intros path prefix isRoot; [done|].
  cbn [printTree]. unfold printTree_body.
  pose proof Hsame as (Hhid & _ & Hrev & _).
  rewrite Hhid, Hrev.
  destruct (os_Lstat path) as [info|e]; [|done].
  destruct (readDir path (showHidden o2) (reverse o2)) as [[entries|e]| |];
    cbn [mbind exec_bind]; try done.
  rewrite (printEntries_sameButMaxDepth _
             (fun p pre => printTree fuel p o2 pre false) o1 o2)
    by (try done; intros; apply IH).
  by rewrite (printNode_sameButMaxDepth o1 o2).
Qed.

End MaxDepth.

(** C7: two runs whose options differ only in [maxDepth] print the same
    tree for every path and produce the same output for every list of roots:
    nothing reads the field. *)
Theorem maxDepth_has_no_effect `{W : World} (fuel : nat) (o1 o2 : Options) :
  sameButMaxDepth o1 o2 ->
  (forall path prefix isRoot,
     printTree fuel path o1 prefix isRoot = printTree fuel path o2 prefix isRoot)
  /\ (forall paths, listPaths fuel o1 paths = listPaths fuel o2 paths).
Proof.
  intros Hsame. split; [by apply printTree_sameButMaxDepth|].
  intros paths. unfold listPaths.
  generalize (if Slice.len paths =? 0 then paths ++ ["."%string] else paths).
  intros roots. generalize (Slice.len roots) as n. generalize 0 as i.
  induction roots as [|root rest IH]; intros i n; [done|].
  cbn [listRoots]. rewrite IH. unfold listRoot.
  by rewrite (printTree_sameButMaxDepth o1 o2).
Qed.

Lemma maxDepth_has_no_effect_witness :
  listPaths (W := Demo.world) 3 Demo.defaults ["root"%string]
  = listPaths 3
      {| showHidden := false; longFormat := false; reverse := false;
         derefLinks := false; noSymlink := false; maxDepth := 1 |}
      ["root"%string].
Proof.
  apply (proj2 (maxDepth_has_no_effect (W := Demo.world) 3 Demo.defaults
                  {| showHidden := false; longFormat := false; reverse := false;
                     derefLinks := false; noSymlink := false; maxDepth := 1 |}
                  ltac:(repeat split))).
Defined.

(** ** Errors during the traversal, and the loop over the roots *)

Section Loops.
Context `{W : World}.

Lemma printEntries_app
    (rec : string -> string -> exec (list Event * option error))
    (path : string) (opts : Options) (prefix : string) (n : Z)
    (l1 l2 : list FileInfo) :
  forall i,
    printEntries rec path opts prefix n i (l1 ++ l2)
    = o1 ← printEntries rec path opts prefix n i l1;
      o2 ← printEntries rec path opts prefix n (i + Slice.len l1) l2;
      Done (o1 ++ o2).
Proof.
  induction l1 as [|e l1 IH]; intros i.
  - cbn. rewrite Z.add_0_r. by destruct (printEntries _ _ _ _ _ _ l2).
  - cbn [app printEntries]. rewrite IH, len_cons.
    replace (i + (1 + Slice.len l1)) with (i + 1 + Slice.len l1) by lia.
    destruct (printEntry rec path opts prefix (i =? n - 1) e); cbn; try done.
    destruct (printEntries rec path opts prefix n (i + 1) l1); cbn; try done.
    destruct (printEntries rec path opts prefix n _ l2); cbn; try done.
    by rewrite app_assoc.
Qed.

Lemma listRoots_app (fuel : nat) (opts : Options) (n : Z)
    (l1 l2 : list string) :
  forall i,
    listRoots fuel opts n i (l1 ++ l2)
    = o1 ← listRoots fuel opts n i l1;
      o2 ← listRoots fuel opts n (i + Slice.len l1) l2;
      Done (o1 ++ o2).
Proof.
  induction l1 as [|r l1 IH]; intros i.
  - cbn. rewrite Z.add_0_r. by destruct (listRoots _ _ _ _ l2).
  - cbn [app listRoots]. rewrite IH, len_cons.
    replace (i + (1 + Slice.len l1)) with (i + 1 + Slice.len l1) by lia.
    destruct (listRoot fuel opts n i r); cbn; try done.
    destruct (listRoots fuel opts n (i + 1) l1); cbn; try done.
    destruct (listRoots fuel opts n _ l2); cbn; try done.
    by rewrite app_assoc.
Qed.

Lemma listRoot_unfold (fuel : nat) (opts : Options) (n i : Z) (root : string) :
  listRoot fuel opts n i root
  = r ← printTree fuel root opts "" true;
    Done ((if 1 <? n
           then (if 0 <? i then [Stdout ""] else []) ++ [Stdout (root +:+ ":")]
           else [])
          ++ r.1 ++ rootWarning root r.2).
Proof.
  unfold listRoot.
  destruct (printTree fuel root opts "" true) as [[out [e|]]| |]; cbn; try done.
  by rewrite app_nil_r.
Qed.

(** An error of [printTree] comes from [Lstat] or from [readDir], before
    anything is printed. *)
Lemma printTree_error_silent (fuel : nat) (path : string) (opts : Options)
    (prefix : string) (isRoot : bool) (out : list Event) (e : error) :
  printTree fuel path opts prefix isRoot = Done (out, Some e) -> out = [].
Proof.
  destruct fuel as [|fuel]; [discriminate|]. cbn [printTree].
  unfold printTree_body. destruct (os_Lstat path) as [info|e']; [|congruence].
  destruct (readDir _ _ _) as [[entries|e']| |]; cbn [mbind exec_bind];
    try congruence.
  destruct (printEntries _ _ _ _ _ _ _); cbn; congruence.
Qed.

End Loops.

(** C8: a path that cannot be listed makes [printTree] return the error with
    nothing printed; in the loop over a listing, and in the loop over the
    roots, that error becomes one warning and the loop goes on with what
    follows. *)
Theorem traversal_errors_not_fatal `{W : World} (fuel : nat) (opts : Options) :
  let rec := fun p pre => printTree fuel p opts pre false in
  (forall path prefix isRoot e,
     os_Lstat path = Err e ->
     printTree (S fuel) path opts prefix isRoot = Done ([], Some e))
  /\ (forall path prefix isRoot info e,
        os_Lstat path = Ok info ->
        os_Open path = Err e
        \/ (exists f, os_Open path = Ok f /\ File_Readdir f = Err e) ->
        printTree (S fuel) path opts prefix isRoot = Done ([], Some e))
  /\ (forall path prefix isRoot out e,
        printTree fuel path opts prefix isRoot = Done (out, Some e) -> out = [])
  /\ (forall path prefix n i before entry after entry' entryPath isSym target e,
        resolveEntry opts entry (filepath_Join path (Name entry))
          = (entry', entryPath, isSym, target) ->
        IsDir entry' = true ->
        let isLast := i + Slice.len before =? n - 1 in
        rec entryPath (prefix +:+ (if isLast then space else pipe))
          = Done ([], Some e) ->
        printEntries rec path opts prefix n i (before ++ entry :: after)
        = o1 ← printEntries rec path opts prefix n i before;
          o2 ← printEntries rec path opts prefix n
                 (i + Slice.len before + 1) after;
          Done (o1
                ++ (printNode (Name entry') entry' opts
                      (prefix +:+ (if isLast then branch else tee))
                      false true target isSym
                    ++ [Warn (ErrorReadingDirectory entryPath e)])
                ++ o2))
  /\ (forall n i before root after e,
        printTree fuel root opts "" true = Done ([], Some e) ->
        listRoots fuel opts n i (before ++ root :: after)
        = o1 ← listRoots fuel opts n i before;
          o2 ← listRoots fuel opts n (i + Slice.len before + 1) after;
          Done (o1
                ++ ((if 1 <? n
                     then (if 0 <? i + Slice.len before then [Stdout ""] else [])
                          ++ [Stdout (root +:+ ":")]
                     else [])
                    ++ [Warn (ErrorListing root e)])
                ++ o2)).
Proof.
  intros rec. split; [|split; [|split; [|split]]].
  - intros path prefix isRoot e Hl. cbn [printTree]. unfold printTree_body.
    by rewrite Hl.
  - intros path prefix isRoot info e Hl Ho. cbn [printTree].
    unfold printTree_body, readDir. rewrite Hl.
    by destruct Ho as [->|(f & -> & ->)].
  - intros path prefix isRoot out e. apply printTree_error_silent.
  - intros path prefix n i before entry after entry' entryPath isSym target e
      Hres Hdir isLast Hrec.
    rewrite printEntries_app. cbn [printEntries].
    fold isLast. rewrite printEntry_unfold, Hres. cbv zeta.
    replace (if isLast then prefix +:+ space else prefix +:+ pipe)
      with (prefix +:+ (if isLast then space else pipe)) by (by destruct isLast).
    replace (if isLast then prefix +:+ branch else prefix +:+ tee)
      with (prefix +:+ (if isLast then branch else tee)) by (by destruct isLast).
    rewrite Hdir, Hrec. cbn [mbind exec_bind fst snd dirWarning app].
    destruct (printEntries rec path opts prefix n i before); cbn; try done.
    destruct (printEntries rec path opts prefix n _ after); cbn; done.
  - intros n i before root after e Hrun.
    rewrite listRoots_app. cbn [listRoots].
    rewrite listRoot_unfold, Hrun. cbn [mbind exec_bind fst snd rootWarning app].
    destruct (listRoots fuel opts n i before); cbn; try done.
    destruct (listRoots fuel opts n _ after); cbn; done.
Qed.

Lemma traversal_errors_not_fatal_witness :
  listRoots (W := Demo.world) 3 Demo.defaults 3 0
    (["root"%string] ++ "missing"%string :: ["twins"%string])
  = o1 ← listRoots 3 Demo.defaults 3 0 ["root"%string];
    o2 ← listRoots 3 Demo.defaults 3 2 ["twins"%string];
    Done (o1
          ++ ([Stdout ""; Stdout "missing:"]
              ++ [Warn (ErrorListing "missing" Demo.enoent)])
          ++ o2).
Proof.
  apply (proj2 (proj2 (proj2 (proj2
           (traversal_errors_not_fatal (W := Demo.world) 3 Demo.defaults))))
           3 0 ["root"%string] "missing"%string ["twins"%string] Demo.enoent).
  reflexivity.
Defined.

(** C10: with more than one root, each root's output starts with the header
    line [root:], with an empty line before it for every root but the first;
    with one root, or none (the default [.]), the output is that of the tree
    alone. *)
Theorem root_headers `{W : World} (fuel : nat) (opts : Options) :
  (forall before root after,
     let paths := before ++ root :: after in
     1 < Slice.len paths ->
     listPaths fuel opts paths
     = o1 ← listRoots fuel opts (Slice.len paths) 0 before;
       r ← printTree fuel root opts "" true;
       o2 ← listRoots fuel opts (Slice.len paths) (Slice.len before + 1) after;
       Done (o1
             ++ (match before with [] => [] | _ :: _ => [Stdout ""] end
                 ++ [Stdout (root +:+ ":")] ++ r.1 ++ rootWarning root r.2)
             ++ o2))
  /\ (forall root,
        listPaths fuel opts [root]
        = r ← printTree fuel root opts "" true;
          Done (r.1 ++ rootWarning root r.2))
  /\ listPaths fuel opts []
     = (r ← printTree fuel "." opts "" true;
        Done (r.1 ++ rootWarning "." r.2)).
Proof.
  split; [|split].
  - intros before root after paths Hn. unfold listPaths.
    destruct (Z.eqb_spec (Slice.len paths) 0) as [?|_]; [lia|].
    unfold paths at 2. rewrite listRoots_app. cbn [listRoots].
    rewrite listRoot_unfold. rewrite Z.add_0_l.
    destruct (Z.ltb_spec 1 (Slice.len paths)) as [_|?]; [|lia].
    replace (if 0 <? Slice.len before then [Stdout ""] else [])
      with (match before with [] => [] | _ :: _ => [Stdout ""] end).
    2:{ destruct before as [|b before]; [done|]. rewrite len_cons.
        pose proof (len_nonneg before).
        by destruct (Z.ltb_spec 0 (1 + Slice.len before)); [|lia]. }
    destruct (listRoots fuel opts _ 0 before); cbn; try done.
    destruct (printTree fuel root opts "" true) as [[out err]| |]; cbn; try done.
    destruct (listRoots fuel opts _ _ after); cbn; try done.
    by list_norm.
  - intros root. unfold listPaths.
    change (Slice.len [root] =? 0) with false. cbv iota zeta.
    cbn [listRoots]. rewrite listRoot_unfold.
    change (1 <? Slice.len [root]) with false. cbv iota.
    destruct (printTree fuel root opts "" true) as [[out err]| |]; cbn; try done.
    by rewrite app_nil_r.
  - unfold listPaths.
    change (Slice.len (@nil string) =? 0) with true. cbv iota zeta.
    cbn [app listRoots]. rewrite listRoot_unfold.
    change (1 <? Slice.len ["."%string]) with false. cbv iota.
    destruct (printTree fuel "." opts "" true) as [[out err]| |]; cbn; try done.
    by rewrite app_nil_r.
Qed.

Lemma root_headers_witness :
  listPaths (W := Demo.world) 3 Demo.defaults
    (["missing"%string] ++ "twins"%string :: [])
  = Done [Stdout "missing:"; Warn (ErrorListing "missing" Demo.enoent);
          Stdout ""; Stdout "twins:"; Stdout "twins"; Stdout "├─ A";
          Stdout "╰─ a"].
Proof.
  rewrite (proj1 (root_headers (W := Demo.world) 3 Demo.defaults)
             ["missing"%string] "twins"%string []); reflexivity.
Defined.

(** * Further properties *)

(** ** Argument parsing *)

(** A string of flag letters switches on exactly the options whose letters
    occur in it, whatever their order and number, and leaves [noSymlink] and
    [maxDepth] alone. *)
Theorem parseFlags_sets_letters (chars : string) :
  forall opts,
    allFlagLetters chars = true ->
    parseFlags chars opts
    = inl {| showHidden := showHidden opts || hasByte "a" chars;
             longFormat := longFormat opts || hasByte "l" chars;
             reverse := reverse opts || hasByte "r" chars;
             derefLinks := derefLinks opts || hasByte "L" chars;
             noSymlink := noSymlink opts;
             maxDepth := maxDepth opts |}.
Proof.
  induction chars as [|ch rest IH]; intros opts Hall.
  - cbn. rewrite !orb_false_r. by destruct opts.
  - cbn [allFlagLetters] in Hall. apply andb_true_iff in Hall as [Hch Hrest].
    cbn [parseFlags hasByte]. unfold isFlagLetter in Hch.
    destruct (Ascii.eqb_spec ch "a") as [->|_].
    { rewrite IH by done. cbn. by rewrite !orb_true_r. }
    destruct (Ascii.eqb_spec ch "l") as [->|_].
    { rewrite IH by done. cbn. by rewrite !orb_true_r. }
    destruct (Ascii.eqb_spec ch "r") as [->|_].
    { rewrite IH by done. cbn. by rewrite !orb_true_r. }
    destruct (Ascii.eqb_spec ch "L") as [->|_]; [|discriminate].
    rewrite IH by done. cbn. by rewrite !orb_true_r.
Qed.

Lemma parseFlags_sets_letters_witness :
  parseFlags "lala" zeroOptions
  = inl {| showHidden := true; longFormat := true; reverse := false;
           derefLinks := false; noSymlink := false; maxDepth := 0 |}.
Proof.
  apply (parseFlags_sets_letters "lala" zeroOptions). reflexivity.
Defined.

Lemma parseFlags_app (good chars : string) :
  forall opts,
    allFlagLetters good = true ->
    parseFlags (good +:+ chars) opts
    = match parseFlags good opts with
      | inl opts' => parseFlags chars opts'
      | inr unknown => inr unknown
      end.
Proof.
  induction good as [|ch rest IH]; intros opts Hall; [done|].
  cbn [allFlagLetters] in Hall. apply andb_true_iff in Hall as [Hch Hrest].
  change (String ch rest +:+ chars) with (String ch (rest +:+ chars)).
  cbn [parseFlags]. unfold isFlagLetter in Hch.
  destruct (Ascii.eqb ch "a"); [by apply IH|].
  destruct (Ascii.eqb ch "l"); [by apply IH|].
  destruct (Ascii.eqb ch "r"); [by apply IH|].
  destruct (Ascii.eqb ch "L"); [by apply IH|discriminate].
Qed.

Lemma parseFlags_letters_inl (good : string) :
  forall opts,
    allFlagLetters good = true -> exists opts', parseFlags good opts = inl opts'.
Proof.
  induction good as [|ch rest IH]; intros opts Hall; [by eexists|].
  cbn [allFlagLetters] in Hall. apply andb_true_iff in Hall as [Hch Hrest].
  cbn [parseFlags]. unfold isFlagLetter in Hch.
  repeat (destruct (Ascii.eqb ch _); [by apply IH|]). discriminate.
Qed.

(** The first byte that is no flag letter ends the parsing: what it reports
    starts at that byte, and the letters after it are not looked at. *)
Theorem parseFlags_first_unknown (good : string) (ch : ascii) (rest : string)
    (opts : Options) :
  allFlagLetters good = true ->
  isFlagLetter ch = false ->
  parseFlags (good +:+ String ch rest) opts = inr (String ch rest).
Proof.
  intros Hgood Hch. rewrite parseFlags_app by done.
  destruct (parseFlags_letters_inl good opts Hgood) as [opts' ->].
  cbn [parseFlags]. unfold isFlagLetter in Hch.
  by repeat (destruct (Ascii.eqb ch _); try discriminate).
Qed.

Lemma parseFlags_first_unknown_witness :
  parseFlags "alhr" zeroOptions = inr "hr"%string.
Proof.
  apply (parseFlags_first_unknown "al" "h" "r" zeroOptions); reflexivity.
Defined.

Lemma parseFlags_maxDepth (chars : string) :
  forall opts opts',
    parseFlags chars opts = inl opts' -> maxDepth opts' = maxDepth opts.
Proof.
  induction chars as [|ch rest IH]; intros opts opts'; cbn [parseFlags].
  - by intros [= <-].
  - repeat (destruct (Ascii.eqb ch _);
            [intros Hrun; by rewrite (IH _ _ Hrun)|]).
    discriminate.
Qed.

(** No argument sets [maxDepth]: a run of the loop that ends normally leaves
    the field as it found it, so [main] always lists with [maxDepth = 0]. *)
Theorem parseArgs_keeps_maxDepth (args : list string) :
  forall opts paths opts' paths',
    parseArgs args opts paths = Run opts' paths' ->
    maxDepth opts' = maxDepth opts.
Proof.
  induction args as [|arg rest IH]; intros opts paths opts' paths';
    cbn [parseArgs].
  - by intros [= <- _].
  - destruct (String.eqb arg "--help" || String.eqb arg "-h"); [discriminate|].
    destruct (String.eqb arg "--no-symlink").
    { intros Hrun. by rewrite (IH _ _ _ _ Hrun). }
    destruct (isFlagArg arg).
    + destruct (parseFlags (fromSecondByte arg) opts) as [o|u] eqn:Hflags;
        [|discriminate].
      intros Hrun. rewrite (IH _ _ _ _ Hrun).
      by apply (parseFlags_maxDepth (fromSecondByte arg)).
    + intros Hrun. by rewrite (IH _ _ _ _ Hrun).
Qed.

Lemma parseArgs_keeps_maxDepth_witness :
  maxDepth
    {| showHidden := true; longFormat := false; reverse := true;
       derefLinks := false; noSymlink := true; maxDepth := 0 |}
  = maxDepth zeroOptions.
Proof.
  apply (parseArgs_keeps_maxDepth
           ["-ar"%string; "dir"%string; "--no-symlink"%string] zeroOptions []
           _ ["dir"%string]).
  reflexivity.
Defined.

(** The paths of a run are the arguments that are no flag arguments, in the
    order given; a lone [-] and the empty string count as paths. *)
Theorem parseArgs_paths_in_order (args : list string) :
  forall opts paths opts' paths',
    parseArgs args opts paths = Run opts' paths' ->
    paths' = paths ++ List.filter (fun arg => negb (isFlagArg arg)) args.
Proof.
  induction args as [|arg rest IH]; intros opts paths opts' paths';
    cbn [parseArgs List.filter].
  - intros [= _ <-]. by rewrite app_nil_r.
  - destruct (String.eqb arg "--help" || String.eqb arg "-h"); [discriminate|].
    destruct (String.eqb_spec arg "--no-symlink") as [->|_].
    { intros Hrun. by rewrite (IH _ _ _ _ Hrun). }
    destruct (isFlagArg arg); cbn [negb].
    + destruct (parseFlags (fromSecondByte arg) opts) as [o|u]; [|discriminate].
      apply IH.
    + intros Hrun. rewrite (IH _ _ _ _ Hrun). by rewrite <- app_assoc.
Qed.

Lemma parseArgs_paths_in_order_witness :
  ["-"%string; "dir"%string; ""%string]
  = [] ++ List.filter (fun arg => negb (isFlagArg arg))
            ["-a"%string; "-"%string; "dir"%string; "-l"%string; ""%string].
Proof.
  apply (parseArgs_paths_in_order
           ["-a"%string; "-"%string; "dir"%string; "-l"%string; ""%string]
           zeroOptions []
           {| showHidden := true; longFormat := true; reverse := false;
              derefLinks := false; noSymlink := false; maxDepth := 0 |}).
  reflexivity.
Defined.

(** Parsing a list of arguments is parsing its first part and then, unless
    that ended in help or in a fatal error, the rest from where it stopped. *)
Theorem parseArgs_app (args1 args2 : list string) :
  forall opts paths,
    parseArgs (args1 ++ args2) opts paths
    = match parseArgs args1 opts paths with
      | Run opts' paths' => parseArgs args2 opts' paths'
      | stopped => stopped
      end.
Proof.
  induction args1 as [|arg rest IH]; intros opts paths; [done|].
  cbn [app parseArgs].
  destruct (String.eqb arg "--help" || String.eqb arg "-h"); [done|].
  destruct (String.eqb arg "--no-symlink"); [apply IH|].
  destruct (isFlagArg arg); [|apply IH].
  destruct (parseFlags (fromSecondByte arg) opts); [apply IH|done].
Qed.

Lemma flagArg_shape (chars : string) :
  chars <> EmptyString -> allFlagLetters chars = true ->
  String.eqb ("-" +:+ chars) "--help" = false
  /\ String.eqb ("-" +:+ chars) "-h" = false
  /\ String.eqb ("-" +:+ chars) "--no-symlink" = false
  /\ isFlagArg ("-" +:+ chars) = true
  /\ fromSecondByte ("-" +:+ chars) = chars.
Proof.
  destruct chars as [|ch rest]; [done|]. intros _ Hall.
  cbn [allFlagLetters] in Hall. apply andb_true_iff in Hall as [Hch _].
  change ("-" +:+ String ch rest) with (String "-" (String ch rest)).
  assert (Hlen : isFlagArg (String "-" (String ch rest)) = true).
  { unfold isFlagArg. apply andb_true_iff. split; [done|].
    apply Z.ltb_lt. cbn [String.length]. lia. }
  unfold isFlagLetter in Hch.
  destruct (Ascii.eqb_spec ch "a") as [->|_]; [by repeat split|].
  destruct (Ascii.eqb_spec ch "l") as [->|_]; [by repeat split|].
  destruct (Ascii.eqb_spec ch "r") as [->|_]; [by repeat split|].
  destruct (Ascii.eqb_spec ch "L") as [->|_]; [by repeat split|discriminate].
Qed.

Lemma allFlagLetters_app (s1 s2 : string) :
  allFlagLetters s1 = true -> allFlagLetters s2 = true ->
  allFlagLetters (s1 +:+ s2) = true.
Proof.
  induction s1 as [|ch rest IH]; intros H1 H2; [done|].
  cbn [allFlagLetters] in H1. apply andb_true_iff in H1 as [Hch Hrest].
  change (String ch rest +:+ s2) with (String ch (rest +:+ s2)).
  cbn [allFlagLetters]. rewrite Hch. by apply IH.
Qed.

(** Flag letters written in one argument act as the same letters split over
    two arguments: [-al] is [-a -l]. *)
Theorem combined_flags_as_separate (s1 s2 : string) (rest : list string)
    (opts : Options) (paths : list string) :
  s1 <> EmptyString -> s2 <> EmptyString ->
  allFlagLetters s1 = true -> allFlagLetters s2 = true ->
  parseArgs (("-" +:+ s1 +:+ s2) :: rest) opts paths
  = parseArgs (("-" +:+ s1) :: ("-" +:+ s2) :: rest) opts paths.
Proof.
  intros Hne1 Hne2 H1 H2.
  assert (Hne : s1 +:+ s2 <> EmptyString) by (by destruct s1).
  destruct (flagArg_shape (s1 +:+ s2) Hne (allFlagLetters_app _ _ H1 H2))
    as (Ha & Hb & Hc & Hd & He).
  destruct (flagArg_shape s1 Hne1 H1) as (Ha1 & Hb1 & Hc1 & Hd1 & He1).
  destruct (flagArg_shape s2 Hne2 H2) as (Ha2 & Hb2 & Hc2 & Hd2 & He2).
  cbn [parseArgs].
  rewrite Ha, Hb, Hc, Hd, He, Ha1, Hb1, Hc1, Hd1, He1. cbn [orb].
  rewrite parseFlags_app by done.
  destruct (parseFlags_letters_inl s1 opts H1) as [opts1 ->].
  by rewrite Ha2, Hb2, Hc2, Hd2, He2.
Qed.

Lemma combined_flags_as_separate_witness :
  parseArgs ["-al"%string; "dir"%string] zeroOptions []
  = parseArgs ["-a"%string; "-l"%string; "dir"%string] zeroOptions [].
Proof.
  apply (combined_flags_as_separate "a" "l" ["dir"%string] zeroOptions []);
    done.
Defined.

Lemma not_flagArg_not_keyword (arg : string) :
  isFlagArg arg = false ->
  String.eqb arg "--help" || String.eqb arg "-h" = false
  /\ String.eqb arg "--no-symlink" = false.
Proof.
  intros Hno. split.
  - destruct (String.eqb_spec arg "--help") as [->|_]; [discriminate|].
    destruct (String.eqb_spec arg "-h") as [->|_]; [discriminate|done].
  - destruct (String.eqb_spec arg "--no-symlink") as [->|_]; [discriminate|done].
Qed.

(** Options may follow paths: a path and the flag argument after it can
    change places without changing the outcome of the parsing. *)
Theorem options_may_follow_paths (pathArg flagArg : string) (rest : list string)
    (opts : Options) (paths : list string) :
  isFlagArg pathArg = false -> isFlagArg flagArg = true ->
  parseArgs (pathArg :: flagArg :: rest) opts paths
  = parseArgs (flagArg :: pathArg :: rest) opts paths.
Proof.
  intros Hpath Hflag.
  destruct (not_flagArg_not_keyword pathArg Hpath) as [Hhelp Hno].
  cbn [parseArgs]. rewrite Hhelp, Hno, Hpath, Hflag.
  destruct (String.eqb flagArg "--help" || String.eqb flagArg "-h"); [done|].
  by destruct (String.eqb flagArg "--no-symlink").
Qed.

Lemma options_may_follow_paths_witness :
  parseArgs ["dir"%string; "-r"%string] zeroOptions []
  = parseArgs ["-r"%string; "dir"%string] zeroOptions [].
Proof.
  apply (options_may_follow_paths "dir" "-r" [] zeroOptions []); reflexivity.
Defined.

(** The first [--help] or [-h] ends the run with the usage text: whatever
    comes after it, unknown flags included, is not looked at and nothing is
    listed, provided the arguments before it parse. *)
Theorem help_stops_the_run `{W : World} (fuel : nat)
    (before : list string) (h : string) (after : list string)
    (opts : Options) (paths : list string) :
  parseArgs before zeroOptions [] = Run opts paths ->
  h = "--help"%string \/ h = "-h"%string ->
  main fuel (before ++ h :: after) = Done (Returned usage).
Proof.
  intros Hbefore Hh. unfold main.
  assert (Hstop : forall o p o' p',
            parseArgs before o p = Run o' p' ->
            parseArgs (before ++ h :: after) o p = ShowHelp).
  { clear Hbefore opts paths.
    induction before as [|arg rest IH]; intros o p o' p'; cbn [app parseArgs].
    - intros _. by destruct Hh as [-> | ->].
    - destruct (String.eqb arg "--help" || String.eqb arg "-h"); [done|].
      destruct (String.eqb arg "--no-symlink"); [apply IH|].
      destruct (isFlagArg arg); [|apply IH].
      destruct (parseFlags (fromSecondByte arg) o); [apply IH|discriminate]. }
  by rewrite (Hstop _ _ _ _ Hbefore).
Qed.

Lemma help_stops_the_run_witness :
  main (W := Demo.world) 3
    (["-a"%string; "root"%string] ++ "-h"%string :: ["-zz"%string])
  = Done (Returned usage).
Proof.
  apply (help_stops_the_run (W := Demo.world) 3 ["-a"%string; "root"%string]
           "-h" ["-zz"%string]
           {| showHidden := true; longFormat := false; reverse := false;
              derefLinks := false; noSymlink := false; maxDepth := 0 |}
           ["root"%string]); [reflexivity|by right].
Defined.

(** ** The sort routine, by index *)

Section SliceIndex.
Context {A : Type}.
Implicit Types (s pre seg post : list A).

Lemma get_out_of_range s (k : Z) :
  k < 0 \/ Slice.len s <= k -> Slice.get s k = Panic.
Proof.
  intros Hk. unfold Slice.get, Slice.len in *.
  destruct (Z.ltb_spec k 0); [done|].
  rewrite (lookup_ge_None_2 s (Z.to_nat k)); [done|lia].
Qed.

Lemma get_segment pre seg post (k : Z) (x : A) :
  Slice.len pre <= k -> k < Slice.len pre + Slice.len seg ->
  Slice.get (pre ++ seg ++ post) k = Done x ->
  seg !! Z.to_nat (k - Slice.len pre) = Some x.
Proof.
  unfold Slice.get, Slice.len. intros Hlo Hhi.
  destruct (Z.ltb_spec k 0); [lia|].
  rewrite lookup_app_r by lia. rewrite lookup_app_l by lia.
  replace (Z.to_nat k - length pre)%nat
    with (Z.to_nat (k - Z.of_nat (length pre))) by lia.
  destruct (seg !! _); [by intros [= ->]|discriminate].
Qed.

Lemma get_frame pre seg seg' post (k : Z) :
  length seg = length seg' ->
  k < Slice.len pre \/ Slice.len pre + Slice.len seg <= k ->
  Slice.get (pre ++ seg' ++ post) k = Slice.get (pre ++ seg ++ post) k.
Proof.
  unfold Slice.get, Slice.len. intros Hlen Hk.
  destruct (Z.ltb_spec k 0); [done|].
  destruct Hk as [Hk|Hk].
  - by rewrite !lookup_app_l by lia.
  - rewrite !(lookup_app_r pre) by lia.
    rewrite !lookup_app_r by lia. by rewrite Hlen.
Qed.

Lemma StronglySorted_lookup (R : relation A) (l : list A) :
  StronglySorted R l ->
  forall (i j : nat) (x y : A),
    (i < j)%nat -> l !! i = Some x -> l !! j = Some y -> R x y.
Proof.
  induction 1 as [|a l _ IH Ha]; intros i j x y Hij Hx Hy.
  - by rewrite lookup_nil in Hx.
  - destruct j as [|j]; [lia|]. cbn in Hy. destruct i as [|i]; cbn in Hx.
    + injection Hx as ->. rewrite Forall_forall in Ha.
      apply Ha. by apply list_elem_of_lookup_2 in Hy.
    + apply (IH i j); [lia|done..].
Qed.
End SliceIndex.

(** [partition] on a segment within the slice: the pivot is the element that
    stood at [high]; it ends at the returned index, with the elements that
    [less] puts before it on its left and the others on its right; the slice
    is permuted and nothing outside the segment moves. *)
Theorem partition_contract `{W : World} (r : bool) (s : list FileInfo)
    (low high : Z) :
  0 <= low -> low <= high -> high < Slice.len s ->
  exists s' p pv,
    partition (less r) s low high = Done (s', p)
    /\ low <= p <= high
    /\ Slice.get s high = Done pv /\ Slice.get s' p = Done pv
    /\ Permutation s' s
    /\ (forall k x, low <= k < p -> Slice.get s' k = Done x ->
          entry_lt r x pv = true)
    /\ (forall k x, p < k <= high -> Slice.get s' k = Done x ->
          entry_lt r x pv = false)
    /\ (forall k, k < low \/ high < k -> Slice.get s' k = Slice.get s k).
Proof.
  intros H0 Hlh Hh.
  destruct (segment_split s low high) as
    (pre & mid & pv & post & -> & Hlow & Hhigh); [lia..|].
  destruct (partition_spec (less r) (entry_lt r) (less_reads_entries r)
              pre mid pv post low high Hlow Hhigh)
    as (L & R & Hrun & Hperm & HL & HR).
  pose proof (Permutation_length Hperm) as Hlen. rewrite length_app in Hlen.
  exists (pre ++ L ++ pv :: R ++ post), (low + Slice.len L), pv.
  split; [done|]. split; [unfold Slice.len in *; lia|]. split.
  { replace (pre ++ mid ++ pv :: post) with ((pre ++ mid) ++ pv :: post)
      by (by list_norm).
    apply get_middle. rewrite len_app. lia. }
  split.
  { replace (pre ++ L ++ pv :: R ++ post) with ((pre ++ L) ++ pv :: R ++ post)
      by (by list_norm).
    apply get_middle. rewrite len_app. lia. }
  split.
  { apply Permutation_app_head. rewrite <- Hperm. list_norm.
    apply Permutation_app_head. apply Permutation_middle. }
  split; [|split].
  - intros k x Hk Hget. rewrite Forall_forall in HL. apply HL.
    apply (list_elem_of_lookup_2 _ (Z.to_nat (k - Slice.len pre))).
    apply (get_segment pre L (pv :: R ++ post)); [lia|lia|done].
  - intros k x Hk Hget. rewrite Forall_forall in HR. apply HR.
    apply (list_elem_of_lookup_2 _ (Z.to_nat (k - Slice.len (pre ++ L ++ [pv])))).
    apply (get_segment (pre ++ L ++ [pv]) R post).
    + len_norm. lia.
    + len_norm. unfold Slice.len in *. lia.
    + by list_norm.
  - intros k Hk.
    replace (pre ++ L ++ pv :: R ++ post) with (pre ++ (L ++ pv :: R) ++ post)
      by (by list_norm).
    replace (pre ++ mid ++ pv :: post) with (pre ++ (mid ++ [pv]) ++ post)
      by (by list_norm).
    apply get_frame.
    + rewrite !length_app. cbn [length]. lia.
    + len_norm. lia.
Qed.

Lemma partition_contract_witness :
  exists s' p pv,
    partition (less (W := Demo.world) false) Demo.rootEntries 0 4 = Done (s', p)
    /\ 0 <= p <= 4
    /\ Slice.get Demo.rootEntries 4 = Done pv /\ Slice.get s' p = Done pv
    /\ Permutation s' Demo.rootEntries
    /\ (forall k x, 0 <= k < p -> Slice.get s' k = Done x ->
          entry_lt false x pv = true)
    /\ (forall k x, p < k <= 4 -> Slice.get s' k = Done x ->
          entry_lt false x pv = false)
    /\ (forall k, k < 0 \/ 4 < k ->
          Slice.get s' k = Slice.get Demo.rootEntries k).
Proof.
  apply (partition_contract (W := Demo.world) false Demo.rootEntries 0 4);
    [lia | lia | reflexivity].
Defined.

(** [partition] always reads [entries[high]]: called with [high] outside the
    slice it panics, whatever [low] is.  Only the guard [low < high] of
    [quickSort] keeps the call on an empty slice, where [high] is [-1], away
    from it. *)
Theorem partition_panics_out_of_range `{W : World} (r : bool)
    (s : list FileInfo) (low high : Z) :
  high < 0 \/ Slice.len s <= high ->
  partition (less r) s low high = Panic.
Proof.
  intros Hhigh. pose proof (get_out_of_range s high Hhigh) as Hget.
  unfold partition. destruct (Z.ltb_spec low high) as [Hlt|Hge].
  - destruct (Z.to_nat (high - low)) as [|fuel] eqn:Hfuel; [lia|].
    cbn [partition_loop]. destruct (Z.ltb_spec low high); [|lia].
    assert (less r s low high = Panic) as ->; [|done].
    assert (Hlow : Slice.get s low = Panic \/ exists a, Slice.get s low = Done a).
    { unfold Slice.get. destruct (low <? 0); [by left|].
      destruct (s !! Z.to_nat low); [right; by eexists|by left]. }
    unfold less. rewrite Hget.
    by destruct r, Hlow as [->|[a ->]].
  - assert (partition_loop (less r) (Z.to_nat (high - low)) s low low high
            = Done (s, low)) as ->.
    { destruct (Z.to_nat (high - low)); cbn [partition_loop];
        by destruct (Z.ltb_spec low high); [lia|]. }
    cbn [mbind exec_bind]. unfold Slice.swap. by rewrite Hget.
Qed.

Lemma partition_panics_out_of_range_witness :
  partition (less (W := Demo.world) false) [] 0 (-1) = Panic.
Proof.
  apply (partition_panics_out_of_range (W := Demo.world) false [] 0 (-1)).
  left. lia.
Defined.

(** [quickSort] on a range of the slice sorts that range and nothing else:
    the result is a permutation, equal to the input outside [low..high] and
    in the order of [less] inside, once the budget covers the range. *)
Theorem quickSort_sorts_range_only `{W : World} (r : bool) (s : list FileInfo)
    (low high : Z) (fuel : nat) :
  0 <= low -> high < Slice.len s ->
  (Z.to_nat (high - low + 1) <= fuel)%nat ->
  exists s',
    quickSort (less r) fuel s low high = Done s'
    /\ Permutation s' s
    /\ (forall k, k < low \/ high < k -> Slice.get s' k = Slice.get s k)
    /\ (forall i j x y,
          low <= i -> i < j -> j <= high ->
          Slice.get s' i = Done x -> Slice.get s' j = Done y ->
          entry_lt r y x = false).
Proof.
  intros H0 Hh Hfuel. destruct (Z.le_gt_cases low high) as [Hle|Hgt].
  - destruct (segment_split s low high) as
      (pre & mid & pv & post & -> & Hlow & Hhigh); [lia..|].
    destruct (quickSort_spec (less r) (entry_lt r) (less_reads_entries r)
                (entry_lt_asym r) (entry_lt_trans r) fuel
                (mid ++ [pv]) pre post low high)
      as (seg & Hrun & Hperm & Hsort).
    { rewrite length_app. cbn [length]. unfold Slice.len in *. lia. }
    { done. }
    { len_norm. lia. }
    pose proof (Permutation_length Hperm) as Hlen.
    replace (pre ++ mid ++ pv :: post) with (pre ++ (mid ++ [pv]) ++ post)
      by (by list_norm).
    exists (pre ++ seg ++ post). split; [done|]. split; [by rewrite Hperm|].
    split.
    + intros k Hk. apply get_frame; [done|]. len_norm. lia.
    + intros i j x y Hi Hij Hj Hx Hy.
      assert (Hseg : Slice.len seg = Slice.len mid + 1).
      { unfold Slice.len. rewrite Hlen, length_app. cbn [length]. lia. }
      apply (StronglySorted_lookup (ascending (entry_lt r)) seg Hsort
               (Z.to_nat (i - Slice.len pre)) (Z.to_nat (j - Slice.len pre)));
        [lia | apply (get_segment pre seg post); [lia|lia|done]
        | apply (get_segment pre seg post); [lia|lia|done]].
  - exists s. split.
    { destruct fuel; cbn [quickSort]; by destruct (Z.ltb_spec low high); [lia|]. }
    split; [done|]. split; [done|]. intros; lia.
Qed.

Lemma quickSort_sorts_range_only_witness :
  exists s',
    quickSort (less (W := Demo.world) false) 3 Demo.rootEntries 1 3 = Done s'
    /\ Permutation s' Demo.rootEntries
    /\ (forall k, k < 1 \/ 3 < k ->
          Slice.get s' k = Slice.get Demo.rootEntries k)
    /\ (forall i j x y,
          1 <= i -> i < j -> j <= 3 ->
          Slice.get s' i = Done x -> Slice.get s' j = Done y ->
          entry_lt false y x = false).
Proof.
  apply (quickSort_sorts_range_only (W := Demo.world) false Demo.rootEntries
           1 3 3); [lia | reflexivity | cbn; lia].
Defined.

(** ** The listing and the order in which the directory is read *)

Lemma filterEntries_filter `{W : World} (showHidden : bool)
    (entries : list FileInfo) :
  filterEntries showHidden entries
  = List.filter (fun e => negb (negb showHidden && hasDotPrefix (Name e)))
      entries.
Proof.
  induction entries as [|e rest IH]; cbn; [done|].
  rewrite IH. by destruct (negb showHidden && hasDotPrefix (Name e)).
Qed.

Lemma filter_Permutation_bool {A : Type} (f : A -> bool) (l1 l2 : list A) :
  Permutation l1 l2 -> Permutation (List.filter f l1) (List.filter f l2).
Proof.
  induction 1 as [|x l1 l2 _ IH|x y l|l1 l2 l3 _ IH1 _ IH2]; cbn.
  - done.
  - destruct (f x); [by constructor|done].
  - destruct (f x), (f y); try done. apply perm_swap.
  - by rewrite IH1.
Qed.

Lemma NoDup_map_filter {A B : Type} (g : A -> B) (f : A -> bool) (l : list A) :
  NoDup (map g l) -> NoDup (map g (List.filter f l)).
Proof.
  induction l as [|a l IH]; cbn; [done|].
  intros Hnd. apply NoDup_cons in Hnd as [Ha Hnd].
  destruct (f a); [|by apply IH]. cbn. apply NoDup_cons. split; [|by apply IH].
  intros Hin. apply Ha. apply list_elem_of_In, in_map_iff in Hin as (x & <- & Hx).
  apply list_elem_of_In, in_map. by apply filter_In in Hx as [Hx _].
Qed.

(** When the case-folded names in a directory are pairwise distinct, the
    listing does not depend on the order in which [Readdir] hands out the
    entries. *)
Theorem listing_independent_of_read_order `{W : World} (showHidden r : bool)
    (entries1 entries2 : list FileInfo) :
  Permutation entries1 entries2 ->
  NoDup (map foldedName entries1) ->
  exists listed,
    sortEntries r (filterEntries showHidden entries1) = Done listed
    /\ sortEntries r (filterEntries showHidden entries2) = Done listed.
Proof.
  intros Hperm Hnd.
  destruct (sortEntries_spec r (filterEntries showHidden entries1))
    as (s1 & Hrun1 & Hp1 & Hs1).
  destruct (sortEntries_spec r (filterEntries showHidden entries2))
    as (s2 & Hrun2 & Hp2 & Hs2).
  exists s1. split; [done|]. rewrite Hrun2. f_equal.
  apply (sorted_order_unique r (filterEntries showHidden entries1)); try done.
  - rewrite filterEntries_filter. by apply NoDup_map_filter.
  - rewrite Hp2, !filterEntries_filter. by apply filter_Permutation_bool.
Qed.

Lemma listing_independent_of_read_order_witness :
  exists listed,
    sortEntries (W := Demo.world) false (filterEntries false Demo.rootEntries)
      = Done listed
    /\ sortEntries false (filterEntries false (rev Demo.rootEntries))
       = Done listed.
Proof.
  apply (listing_independent_of_read_order (W := Demo.world) false false
           Demo.rootEntries (rev Demo.rootEntries)).
  - apply Permutation_rev.
  - vm_compute. repeat constructor; rewrite ?elem_of_cons, elem_of_nil;
      intros H; repeat destruct H as [H|H]; try discriminate H; exact H.
Defined.

(** ** The tree printer: directories without visible entries *)




(** ** The tree printer: indentation *)

Lemma append_assoc (a b c : string) : (a +:+ b) +:+ c = a +:+ (b +:+ c).
Proof.
  induction a as [|ch a IH]; [done|].
  change ((String ch a +:+ b) +:+ c) with (String ch ((a +:+ b) +:+ c)).
  change (String ch a +:+ (b +:+ c)) with (String ch (a +:+ (b +:+ c))).
  by rewrite IH.
Qed.




(** ** The tree printer: budget and termination *)


(** The budget does not show in the result: two runs of [printTree] on the
    same arguments that both end within their budgets end alike. *)
Lemma printTree_result_independent_of_budget `{W : World} (opts : Options)
    (fuel1 fuel2 : nat) (path prefix : string) (isRoot : bool)
    (r1 r2 : list Event * option error) :
  printTree fuel1 path opts prefix isRoot = Done r1 ->
  printTree fuel2 path opts prefix isRoot = Done r2 ->
  r1 = r2.
Proof.
  intros H1 H2.
  apply (printTree_fuel_mono opts fuel1 (Nat.max fuel1 fuel2)) in H1; [|lia].
  apply (printTree_fuel_mono opts fuel2 (Nat.max fuel1 fuel2)) in H2; [|lia].
  congruence.
Qed.

(** ** The tree printer: the link options *)

Lemma symlink_unreadable_target_witness :
  printEntry (W := Demo.world) (fun _ _ => Panic) "root" Demo.defaults ""
    true (Demo.symlink "ghost")
  = Done [Stdout "╰─ ghost"].
Proof.
  apply (symlink_unreadable_target (W := Demo.world) (fun _ _ => Panic)
           "root" Demo.defaults "" true (Demo.symlink "ghost") Demo.einval);
    try reflexivity; discriminate.
Defined.

(** With no-symlink set and dereference-links unset, a symlink entry is shown
    by its plain name, in the link style unless it is a dot file, and the
    recursive call is not made. *)
Theorem no_symlink_plain_name `{W : World}
    (rec : string -> string -> exec (list Event * option error))
    (path : string) (opts : Options) (prefix : string) (isLast : bool)
    (entry : FileInfo) :
  Z.land (Mode entry) ModeSymlink <> 0 ->
  IsDir entry = false ->
  derefLinks opts = false -> noSymlink opts = true ->
  printEntry rec path opts prefix isLast entry
  = Done [lineOf opts (prefix +:+ (if isLast then branch else tee))
            (Render (if hasDotPrefix (Name entry) then hiddenStyle else linkStyle)
               (Name entry))
            entry].
Proof.
  intros Hsym Hdir Hderef Hno.
  rewrite printEntry_unfold. unfold resolveEntry.
  apply Z.eqb_neq in Hsym. rewrite Hsym, Hderef, Hno.
  cbn -[printNode lineOf IsDir].
  rewrite Hdir, printNode_child, Hdir, Hno.
  cbn -[lineOf]. by destruct isLast.
Qed.

Lemma no_symlink_plain_name_witness :
  printEntry (W := Demo.world) (fun _ _ => Panic) "root"
    {| showHidden := false; longFormat := false; reverse := false;
       derefLinks := false; noSymlink := true; maxDepth := 0 |}
    "" false (Demo.symlink "link")
  = Done [Stdout "├─ link"].
Proof.
  apply (no_symlink_plain_name (W := Demo.world) (fun _ _ => Panic) "root"
           {| showHidden := false; longFormat := false; reverse := false;
              derefLinks := false; noSymlink := true; maxDepth := 0 |}
           "" false (Demo.symlink "link"));
    try reflexivity; discriminate.
Defined.

(** For an entry that is not a symlink the link options do not matter: its
    iteration of the loop depends on the options through long format only. *)
Theorem link_options_ignored_without_link `{W : World}
    (rec : string -> string -> exec (list Event * option error))
    (path : string) (o1 o2 : Options) (prefix : string) (isLast : bool)
    (entry : FileInfo) :
  Z.land (Mode entry) ModeSymlink = 0 ->
  longFormat o1 = longFormat o2 ->
  printEntry rec path o1 prefix isLast entry
  = printEntry rec path o2 prefix isLast entry.
Proof.
  intros Hsym Hlong. rewrite !printEntry_unfold. unfold resolveEntry.
  rewrite Hsym. cbn -[printNode IsDir].
  rewrite !printNode_child. unfold lineOf. by rewrite Hlong.
Qed.

Lemma link_options_ignored_without_link_witness :
  printEntry (W := Demo.world)
    (fun p pre => printTree 1 p Demo.defaults pre false)
    "root" Demo.defaults "" false (Demo.dir "sub")
  = printEntry (fun p pre => printTree 1 p Demo.defaults pre false)
      "root" Demo.withDeref "" false (Demo.dir "sub").
Proof.
  apply (link_options_ignored_without_link (W := Demo.world)
           (fun p pre => printTree 1 p Demo.defaults pre false)
           "root" Demo.defaults Demo.withDeref "" false (Demo.dir "sub"));
    reflexivity.
Defined.

Lemma printEntries_congr `{W : World}
    (rec1 rec2 : string -> string -> exec (list Event * option error))
    (o1 o2 : Options) (path prefix : string) (n : Z) (entries : list FileInfo) :
  (forall entry p, resolveEntry o1 entry p = resolveEntry o2 entry p) ->
  (forall name info pre isRoot printName target isSym,
     printNode name info o1 pre isRoot printName target isSym
     = printNode name info o2 pre isRoot printName target isSym) ->
  (forall p pre, rec1 p pre = rec2 p pre) ->
  forall i,
    printEntries rec1 path o1 prefix n i entries
    = printEntries rec2 path o2 prefix n i entries.
Proof.
  intros Hres Hnode Hrec. induction entries as [|entry rest IH]; intros i;
    [done|].
  cbn [printEntries]. rewrite IH. f_equal.
  unfold printEntry. rewrite Hres.
  destruct (resolveEntry o2 entry _) as [[[entry' entryPath] isSym] target].
  by rewrite Hnode, Hrec.
Qed.

(** Dereference-links overrides no-symlink: once [-L] is given, setting or
    clearing [--no-symlink] changes nothing in what [printTree] prints. *)
Theorem deref_overrides_no_symlink `{W : World} (opts : Options) (b : bool)
    (fuel : nat) :
  derefLinks opts = true ->
  forall path prefix isRoot,
    printTree fuel path opts prefix isRoot
    = printTree fuel path
        {| showHidden := showHidden opts; longFormat := longFormat opts;
           reverse := reverse opts; derefLinks := derefLinks opts;
           noSymlink := b; maxDepth := maxDepth opts |}
        prefix isRoot.
Proof.
  intros Hderef. induction fuel as [|fuel IH]; intros path prefix isRoot;
    [done|].
  cbn [printTree]. unfold printTree_body. cbn [showHidden reverse].
  destruct (os_Lstat path) as [info|e]; [|done].
  destruct (readDir path (showHidden opts) (reverse opts)) as [[entries|e]| |];
    cbn [mbind exec_bind]; try done.
  assert (Hnode : forall name inf pre root printName target isSym,
            printNode name inf opts pre root printName target isSym
            = printNode name inf
                {| showHidden := showHidden opts; longFormat := longFormat opts;
                   reverse := reverse opts; derefLinks := derefLinks opts;
                   noSymlink := b; maxDepth := maxDepth opts |}
                pre root printName target isSym).
  { intros. unfold printNode. cbn [noSymlink derefLinks longFormat].
    by rewrite Hderef, !andb_false_r. }
  rewrite (printEntries_congr _
             (fun p pre =>
                printTree fuel p
                  {| showHidden := showHidden opts; longFormat := longFormat opts;
                     reverse := reverse opts; derefLinks := derefLinks opts;
                     noSymlink := b; maxDepth := maxDepth opts |}
                  pre false)
             opts
             {| showHidden := showHidden opts; longFormat := longFormat opts;
                reverse := reverse opts; derefLinks := derefLinks opts;
                noSymlink := b; maxDepth := maxDepth opts |}).
  - by rewrite Hnode.
  - intros entry p. unfold resolveEntry. cbn [noSymlink derefLinks].
    rewrite Hderef.
    by destruct (negb (Z.land (Mode entry) ModeSymlink =? 0)).
  - exact Hnode.
  - intros p pre. apply IH.
Qed.

Lemma deref_overrides_no_symlink_witness :
  printTree (W := Demo.world) 3 "root" Demo.withDeref "" true
  = printTree 3 "root"
      {| showHidden := false; longFormat := false; reverse := false;
         derefLinks := true; noSymlink := true; maxDepth := 0 |}
      "" true.
Proof.
  apply (deref_overrides_no_symlink (W := Demo.world) Demo.withDeref true 3
           eq_refl "root" "" true).
Defined.

(** ** The line renderer *)

(** Below the root, the long-format line of an entry is its short-format
    line followed by the mode, the size and the modification time, each after
    one space. *)
Theorem long_line_extends_short `{W : World} (name : string) (info : FileInfo)
    (o1 o2 : Options) (prefix : string) (printName : bool)
    (linkTarget : string) (isSymlink : bool) :
  longFormat o1 = false -> longFormat o2 = true ->
  derefLinks o1 = derefLinks o2 -> noSymlink o1 = noSymlink o2 ->
  exists short,
    printNode name info o1 prefix false printName linkTarget isSymlink
    = [Stdout short]
    /\ printNode name info o2 prefix false printName linkTarget isSymlink
       = [Stdout (short
                  +:+ " " +:+ Render permStyle (FileMode_String (Mode info))
                  +:+ " " +:+ Render sizeStyle (Sprintf_9d (Size info))
                  +:+ " " +:+ Render modTimeStyle (ModTime_Format (ModTime info)))].
Proof.
  intros Hshort Hlong Hderef Hno. rewrite !printNode_child. unfold lineOf.
  rewrite Hshort, Hlong, Hderef, Hno. eexists. split; [reflexivity|].
  by rewrite append_assoc.
Qed.

Lemma long_line_extends_short_witness :
  exists short,
    printNode (W := Demo.world) "a.txt" (Demo.file "a.txt") Demo.defaults "├─ "
      false true "" false
    = [Stdout short]
    /\ printNode "a.txt" (Demo.file "a.txt")
         {| showHidden := false; longFormat := true; reverse := false;
            derefLinks := false; noSymlink := false; maxDepth := 0 |}
         "├─ " false true "" false
       = [Stdout (short +:+ " " +:+ "-rw-r--r--" +:+ " " +:+ "       12"
                  +:+ " " +:+ "2024-01-01 00:00")].
Proof.
  apply (long_line_extends_short (W := Demo.world) "a.txt" (Demo.file "a.txt")
           Demo.defaults
           {| showHidden := false; longFormat := true; reverse := false;
              derefLinks := false; noSymlink := false; maxDepth := 0 |}
           "├─ " true "" false); reflexivity.
Defined.

(** ** More on the arguments *)

(** An argument [-...] with a byte that is no flag letter is fatal, and the
    report starts at that byte: the arguments after it, [--help] included,
    are not looked at and nothing is listed.  ([--help], [-h] and
    [--no-symlink] themselves are recognised before the letters are read.) *)
Theorem unknown_flag_is_fatal `{W : World} (fuel : nat)
    (before : list string) (good : string) (ch : ascii) (rest : string)
    (after : list string) (opts : Options) (paths : list string) :
  parseArgs before zeroOptions [] = Run opts paths ->
  allFlagLetters good = true -> isFlagLetter ch = false ->
  let arg := "-" +:+ good +:+ String ch rest in
  arg <> "--help"%string -> arg <> "-h"%string -> arg <> "--no-symlink"%string ->
  main fuel (before ++ arg :: after) = Done (Fatal (String ch rest)).
Proof.
  intros Hbefore Hgood Hch arg Hhelp Hh Hno. unfold main.
  assert (Hstop : forall o p o' p',
            parseArgs before o p = Run o' p' ->
            parseArgs (before ++ arg :: after) o p
            = UnknownOption (String ch rest)).
  { clear Hbefore opts paths.
    induction before as [|a l IH]; intros o p o' p'; cbn [app parseArgs].
    - intros _.
      apply String.eqb_neq in Hhelp, Hh, Hno. rewrite Hhelp, Hh, Hno.
      cbn [orb].
      assert (isFlagArg arg = true) as ->.
      { unfold isFlagArg, arg. apply andb_true_iff. split.
        - change ("-" +:+ good +:+ String ch rest)
            with (String "-" (good +:+ String ch rest)).
          cbn [String.prefix]. by destruct (good +:+ String ch rest).
        - apply Z.ltb_lt.
          change ("-" +:+ good +:+ String ch rest)
            with (String "-" (good +:+ String ch rest)).
          cbn [String.length].
          destruct good as [|c g];
            [change (EmptyString +:+ String ch rest) with (String ch rest)
            |change (String c g +:+ String ch rest)
               with (String c (g +:+ String ch rest))];
            cbn [String.length]; lia. }
      change (fromSecondByte arg) with (good +:+ String ch rest).
      rewrite parseFlags_app by done.
      destruct (parseFlags_letters_inl good o Hgood) as [o1 ->].
      cbn [parseFlags]. unfold isFlagLetter in Hch.
      by repeat (destruct (Ascii.eqb ch _); try discriminate).
    - destruct (String.eqb a "--help" || String.eqb a "-h"); [done|].
      destruct (String.eqb a "--no-symlink"); [apply IH|].
      destruct (isFlagArg a); [|apply IH].
      destruct (parseFlags (fromSecondByte a) o); [apply IH|discriminate]. }
  by rewrite (Hstop _ _ _ _ Hbefore).
Qed.

Lemma unknown_flag_is_fatal_witness :
  main (W := Demo.world) 3
    (["root"%string] ++ "-ahl"%string :: ["--help"%string])
  = Done (Fatal "hl").
Proof.
  apply (unknown_flag_is_fatal (W := Demo.world) 3 ["root"%string]
           "a" "h" "l" ["--help"%string] zeroOptions ["root"%string]);
    try reflexivity; discriminate.
Defined.

Lemma parseFlags_only_switches_on (chars : string) :
  forall opts opts',
    parseFlags chars opts = inl opts' ->
    (showHidden opts = true -> showHidden opts' = true)
    /\ (longFormat opts = true -> longFormat opts' = true)
    /\ (reverse opts = true -> reverse opts' = true)
    /\ (derefLinks opts = true -> derefLinks opts' = true)
    /\ (noSymlink opts = true -> noSymlink opts' = true).
Proof.
  induction chars as [|ch rest IH]; intros opts opts'; cbn [parseFlags].
  - by intros [= <-].
  - repeat (destruct (Ascii.eqb ch _);
            [intros Hrun; apply IH in Hrun; cbn in Hrun; tauto|]).
    discriminate.
Qed.

(** Arguments only switch options on: an option that is set when the loop
    reaches an argument is still set when the loop ends, so no later
    argument undoes an earlier one. *)
Theorem parseArgs_only_switches_on (args : list string) :
  forall opts paths opts' paths',
    parseArgs args opts paths = Run opts' paths' ->
    (showHidden opts = true -> showHidden opts' = true)
    /\ (longFormat opts = true -> longFormat opts' = true)
    /\ (reverse opts = true -> reverse opts' = true)
    /\ (derefLinks opts = true -> derefLinks opts' = true)
    /\ (noSymlink opts = true -> noSymlink opts' = true).
Proof.
  induction args as [|arg rest IH]; intros opts paths opts' paths';
    cbn [parseArgs].
  - by intros [= <- _].
  - destruct (String.eqb arg "--help" || String.eqb arg "-h"); [discriminate|].
    destruct (String.eqb arg "--no-symlink").
    { intros Hrun. apply IH in Hrun. cbn in Hrun. tauto. }
    destruct (isFlagArg arg); [|apply IH].
    destruct (parseFlags (fromSecondByte arg) opts) as [o|u] eqn:Hflags;
      [|discriminate].
    intros Hrun. apply IH in Hrun.
    apply parseFlags_only_switches_on in Hflags. tauto.
Qed.

Lemma parseArgs_only_switches_on_witness :
  (showHidden Demo.withDeref = true -> showHidden Demo.withDeref = true)
  /\ (longFormat Demo.withDeref = true -> longFormat Demo.withDeref = true)
  /\ (reverse Demo.withDeref = true -> reverse Demo.withDeref = true)
  /\ (derefLinks Demo.withDeref = true -> derefLinks Demo.withDeref = true)
  /\ (noSymlink Demo.withDeref = true -> noSymlink Demo.withDeref = true).
Proof.
  apply (parseArgs_only_switches_on ["-L"%string; "dir"%string]
           Demo.withDeref [] Demo.withDeref ["dir"%string]).
  reflexivity.
Defined.

(** ** Where the errors of the reader and the printer come from *)

(** [readDir] fails exactly when [os.Open] or [Readdir] fails, with that
    error; in every other case it returns a listing: the sort never fails. *)
Theorem readDir_fails_only_on_open_or_read `{W : World} (path : string)
    (showHidden reverse : bool) :
  (forall e,
     readDir path showHidden reverse = Done (Err e)
     <-> os_Open path = Err e
         \/ exists f, os_Open path = Ok f /\ File_Readdir f = Err e)
  /\ ((exists e, readDir path showHidden reverse = Done (Err e))
      \/ exists listed, readDir path showHidden reverse = Done (Ok listed)).
Proof.
  unfold readDir. destruct (os_Open path) as [f|e0] eqn:Hopen.
  - destruct (File_Readdir f) as [entries|e0] eqn:Hread.
    + destruct (sortEntries_spec reverse (filterEntries showHidden entries))
        as (s & -> & _). cbn [mbind exec_bind]. split.
      * intros e. split; [discriminate|].
        intros [?|(f' & [= <-] & ?)]; congruence.
      * right. by eexists.
    + split.
      * intros e. split.
        -- intros [= ->]. right. by exists f.
        -- intros [?|(f' & [= <-] & ?)]; congruence.
      * left. by eexists.
  - split.
    + intros e. split.
      * intros [= ->]. by left.
      * intros [?|(f' & ? & _)]; congruence.
    + left. by eexists.
Qed.

(** The error [printTree] returns is about [path] itself, from [os.Lstat] or
    from [readDir]: an error met further down the tree is never returned. *)
Theorem printTree_error_is_local `{W : World} (fuel : nat) (path : string)
    (opts : Options) (prefix : string) (isRoot : bool) (out : list Event)
    (e : error) :
  printTree fuel path opts prefix isRoot = Done (out, Some e) ->
  os_Lstat path = Err e
  \/ exists info,
       os_Lstat path = Ok info
       /\ readDir path (showHidden opts) (reverse opts) = Done (Err e).
Proof.
  destruct fuel as [|fuel]; [discriminate|]. cbn [printTree].
  unfold printTree_body. destruct (os_Lstat path) as [info|e'].
  - destruct (readDir _ _ _) as [[entries|e']| |]; cbn [mbind exec_bind];
      try discriminate.
    + destruct (printEntries _ _ _ _ _ _ _); cbn [mbind exec_bind];
        discriminate.
    + intros [= _ ->]. right. by exists info.
  - intros [= _ ->]. by left.
Qed.

Lemma printTree_error_is_local_witness :
  os_Lstat (World := Demo.world) "root/locked" = Err Demo.eacces
  \/ exists info,
       os_Lstat (World := Demo.world) "root/locked" = Ok info
       /\ readDir "root/locked" (showHidden Demo.defaults)
            (reverse Demo.defaults)
          = Done (Err Demo.eacces).
Proof.
  apply (printTree_error_is_local (W := Demo.world) 2 "root/locked"
           Demo.defaults "│  " false [] Demo.eacces).
  reflexivity.
Defined.

(** The line of the root is the styled name alone, without prefix and, even
    in long format, without the mode, size and time columns; the name is the
    last element of the path, or the path itself when that element is [.]. *)
Theorem root_line_is_bare `{W : World} (fuel : nat) (path : string)
    (opts : Options) (prefix : string) (out : list Event) (info : FileInfo) :
  os_Lstat path = Ok info ->
  printTree fuel path opts prefix true = Done (out, None) ->
  let name :=
    if String.eqb (filepath_Base path) "." then path else filepath_Base path in
  exists below,
    out = Stdout (Render (if IsDir info then dirStyle
                          else if hasDotPrefix name then hiddenStyle
                          else fileStyle) name)
          :: below.
Proof.
  intros Hlstat. destruct fuel as [|fuel]; [discriminate|]. cbn [printTree].
  unfold printTree_body. rewrite Hlstat.
  destruct (readDir _ _ _) as [[entries|e]| |]; cbn [mbind exec_bind];
    try discriminate.
  destruct (printEntries _ _ _ _ _ _ _) as [body| |]; cbn [mbind exec_bind];
    try discriminate.
  intros [= <-]. cbv zeta. exists body. unfold printNode.
  set (name := if String.eqb (filepath_Base path) "." then path
               else filepath_Base path).
  cbn. by destruct (IsDir info), (hasDotPrefix name).
Qed.

Lemma root_line_is_bare_witness :
  exists below,
    [Stdout "twins"; Stdout "├─ A -rw-r--r--        12 2024-01-01 00:00";
     Stdout "╰─ a -rw-r--r--        12 2024-01-01 00:00"]
    = Stdout "twins" :: below.
Proof.
  apply (root_line_is_bare (W := Demo.world) 1 "twins"
           {| showHidden := false; longFormat := true; reverse := false;
              derefLinks := false; noSymlink := false; maxDepth := 0 |}
           "" _ (Demo.dir "twins")); reflexivity.
Defined.
